(** * mender-update context: persisted provides and artifact compatibility

    A shallow embedding of [src/mender-update/context/context.cpp]:
    the provides merge and its glob filter ([FilterProvides]), the
    hand-built provides blob and its decoding ([LoadProvides]), the
    transactional commit ([CommitArtifactData]), the device type reader
    ([GetDeviceType]), the dependency matcher ([ArtifactMatchesContext])
    and its entry point on the store ([MatchesArtifactDepends]), the
    start-up clean-up ([Initialize]) and the error messages
    ([message]).

    C++ [std::string] is [string] (a list of 8-bit [ascii] characters),
    [unordered_map<string, string>] is [gmap string string],
    [vector<string>] is [list string], [optional<T>] is [option T].
    Functions that take a reference they mutate return the new value next
    to their result. *)

From Stdlib Require Import Ascii String.
From stdpp Require Import gmap strings list fin_maps fin_sets.

Open Scope string_scope.

(** ** Errors (common/error.hpp, context.hpp) *)

(** Modelled from the spec: [error::Error] and the macros
    [AssertOrReturnError] and [AssertOrReturnUnexpected] are declared in
    common/error.hpp, which is not among the sources.  Section 7 lists the
    error kinds and sets the assertions apart: "internal invariant
    violations [...] are unrecoverable assertions, not reported errors".
    [ParseError] and [ValueError] are the [MenderContextErrorCode]s built
    by [MakeError] (lines 93-95); [AssertionFailure] is the outcome of an
    assertion that does not hold, whether the build aborts there or
    returns; the others stand for the errors of collaborators. *)
Inductive Error : Set :=
| NoError
| ParseError
| ValueError
| AssertionFailure
| JsonError             (* json::Load, GetChildren, or the TypeError of LoadProvides *)
| IoError (errno : nat) (* generic_category errors of the file layer *)
| DatabaseError         (* a failed operation of the key-value store *)
| CallerError (code : nat) (* whatever the caller's continuation returns *).

#[global] Instance Error_eq_dec : EqDecision Error.
Proof. solve_decision. Defined.

(** [expected::expected<T, error::Error>]. *)
Inductive Expected (T : Type) : Type :=
| Value (v : T)
| Unexpected (e : Error).
Arguments Value {T} v.
Arguments Unexpected {T} e.

(** ** Error messages (context.cpp 68-91) *)

(** The enumerators of [MenderContextErrorCode] (context.hpp), as the
    switch of [message] names them. *)
Module error_code.

Inductive MenderContextErrorCode : Set :=
| NoError
| ParseError
| ValueError
| NoSuchUpdateModuleError
| DatabaseValueError
| RebootRequiredError
| NoUpdateInProgressError
| UnexpectedHttpResponse
| StateDataStoreCountExceededError.

End error_code.

(** [MenderContextErrorCategoryClass::message] on the codes of the
    enumeration; any other [int] runs into [assert(false)]. *)
Definition message (code : error_code.MenderContextErrorCode) : string :=
  match code with
  | error_code.NoError => "Success"
  | error_code.ParseError => "Parse error"
  | error_code.ValueError => "Value error"
  | error_code.NoSuchUpdateModuleError => "Update Module not found for given artifact type"
  | error_code.DatabaseValueError => "Value in database is invalid or corrupted"
  | error_code.RebootRequiredError => "Reboot required"
  | error_code.NoUpdateInProgressError => "No update in progress"
  | error_code.UnexpectedHttpResponse => "Unexpected HTTP response"
  | error_code.StateDataStoreCountExceededError => "State data store count exceeded"
  end.

(** ** Data model (context.hpp, artifact headers) *)

Abbreviation ProvidesData := (gmap string string).
Abbreviation ClearsProvidesData := (list string).

Module artifact.

(** [artifact::HeaderInfo::depends]. *)
Record Depends := {
  device_type : list string;
  artifact_name : option (list string);
  artifact_group : option (list string);
}.

Record HeaderInfo := { depends : Depends }.

(** [artifact::TypeInfo], restricted to the field this file reads. *)
Record TypeInfo := { artifact_depends : option (gmap string string) }.

(** [artifact::HeaderView], restricted to the two fields
    [MatchesArtifactDepends] passes on. *)
Record HeaderView := {
  header_info : HeaderInfo;
  type_info : TypeInfo;
}.

End artifact.

(** ** The regular-expression library

    [FilterProvides] compiles each escaped pattern with
    [regex::assign(escaped, regex_constants::basic)] and tests keys with
    [regex_match].  The library is the platform's; the translation takes
    it as an interface.  [regex_assign_basic] is [None] when [assign]
    throws [regex_error]. *)
Class RegexLibrary := {
  regex : Type;
  regex_assign_basic : string → option regex;
  regex_match : string → regex → bool;
}.

(** ** FilterProvides (context.cpp 237-284) *)

(** [any_of(meta.begin(), meta.end(), [chr](char c) { return chr == c; })]. *)
Fixpoint any_of_eq (meta : string) (chr : ascii) : bool :=
  match meta with
  | EmptyString => false
  | String c rest => if Ascii.eqb chr c then true else any_of_eq rest chr
  end.

Definition meta_characters : string := ".^$+()[]{}|?".

(** Lines 243-259: the loop that builds [escaped] from [to_clear]. *)
Fixpoint escape (to_clear : string) : string :=
  match to_clear with
  | EmptyString => EmptyString
  | String chr rest =>
      if Ascii.eqb chr "*" then String "." (String chr (escape rest))
      else if any_of_eq meta_characters chr then String "\" (String chr (escape rest))
      else String chr (escape rest)
  end.

Section FilterProvides.
Context `{RegexLibrary}.

(** Lines 267-272: the set of keys of [to_modify] that match. *)
Definition matching_keys (compiled : regex) (to_modify : ProvidesData) : gset string :=
  map_fold (λ key _ keys, if regex_match key compiled then {[key]} ∪ keys else keys)
           ∅ to_modify.

(** Lines 273-275: erase every collected key. *)
Definition erase_keys (keys : gset string) (to_modify : ProvidesData) : ProvidesData :=
  set_fold (λ key m, delete key m) to_modify keys.

(** Lines 242-276: one round per pattern.  A pattern that does not
    compile stops the function at [AssertOrReturnError], with
    [to_modify] as the earlier rounds left it. *)
Fixpoint clear_loop (clears_provides : ClearsProvidesData) (to_modify : ProvidesData)
  : Error * ProvidesData :=
  match clears_provides with
  | [] => (NoError, to_modify)
  | to_clear :: rest =>
      match regex_assign_basic (escape to_clear) with
      | None => (AssertionFailure, to_modify)
      | Some compiled =>
          clear_loop rest (erase_keys (matching_keys compiled to_modify) to_modify)
      end
  end.

(** Lines 278-281: [to_modify[k] = v] for every entry of [new_provides]. *)
Definition add_provides (new_provides to_modify : ProvidesData) : ProvidesData :=
  map_fold (λ key value m, <[key := value]> m) to_modify new_provides.

Definition FilterProvides (new_provides : ProvidesData)
    (clears_provides : ClearsProvidesData) (to_modify : ProvidesData)
  : Error * ProvidesData :=
  match clear_loop clears_provides to_modify with
  | (NoError, cleared) => (NoError, add_provides new_provides cleared)
  | failed => failed
  end.

(** ** The merge of CommitArtifactData (context.cpp 297-327)

    [existing] is the value of [LoadProvides]; the result is the error
    checked on line 318 and [modified_provides] after line 327. *)
Definition set_reserved (artifact_name artifact_group : string)
    (modified_provides : ProvidesData) : ProvidesData :=
  let with_name :=
    if decide (artifact_name ≠ EmptyString)
    then <["artifact_name" := artifact_name]> modified_provides
    else modified_provides in
  if decide (artifact_group ≠ EmptyString)
  then <["artifact_group" := artifact_group]> with_name
  else with_name.

Definition merge_provides (existing : ProvidesData)
    (artifact_name artifact_group : string)
    (new_provides : option ProvidesData)
    (clears_provides : option ClearsProvidesData) : Error * ProvidesData :=
  let '(err, modified_provides) :=
    match new_provides, clears_provides with
    | None, None => (NoError, ∅)
    | None, Some clears => FilterProvides ∅ clears existing
    | Some new, None => (NoError, new)
    | Some new, Some clears => FilterProvides new clears existing
    end in
  match err with
  | NoError => (NoError, set_reserved artifact_name artifact_group modified_provides)
  | _ => (err, modified_provides)
  end.

End FilterProvides.

(** ** The JSON layer (common/json.hpp) *)

Module json.

Local Open Scope char_scope.
Local Open Scope N_scope.
(** The part of [json::Json] that [LoadProvides] looks at. *)
#[local] Unset Elimination Schemes.
Inductive Json : Type :=
| JsonString (s : string)
| JsonObject (children : list (string * Json))
| JsonOther.
#[local] Set Elimination Schemes.

Definition IsString (j : Json) : bool :=
  match j with JsonString _ => true | _ => false end.

Definition GetString (j : Json) : Expected string :=
  match j with JsonString s => Value s | _ => Unexpected JsonError end.

Definition GetChildren (j : Json) : Expected (list (string * Json)) :=
  match j with JsonObject children => Value children | _ => Unexpected JsonError end.

Definition code (c : ascii) : N := N_of_ascii c.
Definition chr (n : N) : ascii := ascii_of_N n.
Definition quote : ascii := chr 34.

Definition hex_digit (n : N) : ascii :=
  if n <? 10 then chr (48 + n) else chr (87 + n).

(** Modelled from the spec: [json::EscapeString] is defined in
    common/json, which is not among the sources.  Section 6 asks for
    "quote, backslash, and control-character escaping for values": a
    quote and a backslash get a backslash in front, the control
    characters with a short form use it, the other characters below
    0x20 are written [\u00XX], everything else is copied. *)
Fixpoint EscapeString (s : string) : string :=
  match s with
  | EmptyString => EmptyString
  | String c rest =>
      let n := code c in
      if n =? 34 then String "\" (String quote (EscapeString rest))
      else if n =? 92 then String "\" (String "\" (EscapeString rest))
      else if n =? 8 then String "\" (String "b" (EscapeString rest))
      else if n =? 12 then String "\" (String "f" (EscapeString rest))
      else if n =? 10 then String "\" (String "n" (EscapeString rest))
      else if n =? 13 then String "\" (String "r" (EscapeString rest))
      else if n =? 9 then String "\" (String "t" (EscapeString rest))
      else if n <? 32 then
        String "\" (String "u" (String "0" (String "0"
          (String (hex_digit (n / 16)) (String (hex_digit (n mod 16))
             (EscapeString rest))))))
      else String c (EscapeString rest)
  end.

(** *** Reading

    Modelled from the spec: [json::Load] is the project's wrapper of
    the JSON parser, which is not among the sources.  Section 4.3:
    "parse the stored blob as a JSON object; every child must be a
    string value".  [Load] below reads RFC 8259 text: white space, an
    object whose members are strings or the literals [true], [false],
    [null]; strings with their escapes, [\uXXXX] with surrogate pairs,
    raw control characters refused, bytes above 0x7f checked to be
    well-formed UTF-8.  Numbers, arrays and nested objects are answered
    with an error by [Load] itself; [LoadProvides] answers each of them
    with an error too (at [GetChildren] or at its string test), and all
    of these are the one [JsonError] here. *)

Definition hex_value (c : ascii) : option N :=
  let n := code c in
  if (48 <=? n) && (n <=? 57) then Some (n - 48)
  else if (65 <=? n) && (n <=? 70) then Some (n - 55)
  else if (97 <=? n) && (n <=? 102) then Some (n - 87)
  else None.

Definition hex4 (a b c d : ascii) : option N :=
  match hex_value a, hex_value b, hex_value c, hex_value d with
  | Some x, Some y, Some z, Some w => Some (((x * 16 + y) * 16 + z) * 16 + w)
  | _, _, _, _ => None
  end.

(** The UTF-8 bytes of a code point. *)
Definition utf8_encode (cp : N) : list ascii :=
  if cp <? 128 then [chr cp]
  else if cp <? 2048 then [chr (192 + cp / 64); chr (128 + cp mod 64)]
  else if cp <? 65536 then
    [chr (224 + cp / 4096); chr (128 + (cp / 64) mod 64); chr (128 + cp mod 64)]
  else
    [chr (240 + cp / 262144); chr (128 + (cp / 4096) mod 64);
     chr (128 + (cp / 64) mod 64); chr (128 + cp mod 64)].

Definition between (lo hi : N) (c : ascii) : bool :=
  (lo <=? code c) && (code c <=? hi).

Definition push (cs : list ascii) (r : option (list ascii * list ascii))
  : option (list ascii * list ascii) :=
  match r with
  | Some (body, rest) => Some ((cs ++ body)%list, rest)
  | None => None
  end.

(** The characters of a string after its opening quote, up to the
    closing one: the decoded bytes and what follows the string. *)
Fixpoint scan_string (input : list ascii) : option (list ascii * list ascii) :=
  match input with
  | [] => None
  | c :: rest =>
      let n := code c in
      if n =? 34 then Some ([], rest)
      else if n =? 92 then
        match rest with
        | e :: rest' =>
            let m := code e in
            if (m =? 34) || (m =? 92) || (m =? 47) then push [e] (scan_string rest')
            else if m =? 98 then push [chr 8] (scan_string rest')
            else if m =? 102 then push [chr 12] (scan_string rest')
            else if m =? 110 then push [chr 10] (scan_string rest')
            else if m =? 114 then push [chr 13] (scan_string rest')
            else if m =? 116 then push [chr 9] (scan_string rest')
            else if m =? 117 then
              match rest' with
              | h1 :: h2 :: h3 :: h4 :: rest'' =>
                  match hex4 h1 h2 h3 h4 with
                  | None => None
                  | Some cp =>
                      if (55296 <=? cp) && (cp <=? 56319) then
                        match rest'' with
                        | b :: u :: l1 :: l2 :: l3 :: l4 :: rest''' =>
                            if (code b =? 92) && (code u =? 117) then
                              match hex4 l1 l2 l3 l4 with
                              | None => None
                              | Some lo =>
                                  if (56320 <=? lo) && (lo <=? 57343) then
                                    push (utf8_encode
                                            (65536 + (cp - 55296) * 1024 + (lo - 56320)))
                                         (scan_string rest''')
                                  else None
                              end
                            else None
                        | _ => None
                        end
                      else if (56320 <=? cp) && (cp <=? 57343) then None
                      else push (utf8_encode cp) (scan_string rest'')
                  end
              | _ => None
              end
            else None
        | [] => None
        end
      else if n <? 32 then None
      else if n <? 128 then push [c] (scan_string rest)
      else if (194 <=? n) && (n <=? 223) then
        match rest with
        | c2 :: rest' =>
            if between 128 191 c2 then push [c; c2] (scan_string rest') else None
        | _ => None
        end
      else if (224 <=? n) && (n <=? 239) then
        match rest with
        | c2 :: c3 :: rest' =>
            if (if n =? 224 then between 160 191 c2
                else if n =? 237 then between 128 159 c2
                else between 128 191 c2) && between 128 191 c3
            then push [c; c2; c3] (scan_string rest') else None
        | _ => None
        end
      else if (240 <=? n) && (n <=? 244) then
        match rest with
        | c2 :: c3 :: c4 :: rest' =>
            if (if n =? 240 then between 144 191 c2
                else if n =? 244 then between 128 143 c2
                else between 128 191 c2) && between 128 191 c3 && between 128 191 c4
            then push [c; c2; c3; c4] (scan_string rest') else None
        | _ => None
        end
      else None
  end.

Definition is_space (c : ascii) : bool :=
  let n := code c in (n =? 32) || (n =? 9) || (n =? 10) || (n =? 13).

Fixpoint skip_space (input : list ascii) : list ascii :=
  match input with
  | c :: rest => if is_space c then skip_space rest else input
  | [] => []
  end.

(** A member value: a string or one of the three literals. *)
Definition scan_value (input : list ascii) : option (Json * list ascii) :=
  match input with
  | c :: rest =>
      if code c =? 34 then
        match scan_string rest with
        | Some (body, rest') => Some (JsonString (string_of_list_ascii body), rest')
        | None => None
        end
      else
        match input with
        | "t" :: "r" :: "u" :: "e" :: rest' => Some (JsonOther, rest')
        | "f" :: "a" :: "l" :: "s" :: "e" :: rest' => Some (JsonOther, rest')
        | "n" :: "u" :: "l" :: "l" :: rest' => Some (JsonOther, rest')
        | _ => None
        end
  | [] => None
  end.

(** The members of an object, from a member's opening quote on:
    [string : value] then [,] and the next member, or [}].  Each round
    consumes input, so the length of the text is fuel enough. *)
Fixpoint scan_members (fuel : nat) (input : list ascii)
  : option (list (string * Json) * list ascii) :=
  match fuel with
  | O => None
  | S fuel' =>
      match input with
      | c :: rest =>
          if code c =? 34 then
            match scan_string rest with
            | Some (key, after_key) =>
                match skip_space after_key with
                | ":" :: after_colon =>
                    match scan_value (skip_space after_colon) with
                    | Some (value, after_value) =>
                        let member := (string_of_list_ascii key, value) in
                        match skip_space after_value with
                        | "," :: more =>
                            match scan_members fuel' (skip_space more) with
                            | Some (members, rest') => Some (member :: members, rest')
                            | None => None
                            end
                        | "}" :: rest' => Some ([member], rest')
                        | _ => None
                        end
                    | None => None
                    end
                | _ => None
                end
            | None => None
            end
          else None
      | [] => None
      end
  end.

Definition scan_document (input : list ascii) : option (Json * list ascii) :=
  match input with
  | "{" :: rest =>
      match skip_space rest with
      | "}" :: rest' => Some (JsonObject [], rest')
      | members_text =>
          match scan_members (length members_text) members_text with
          | Some (members, rest') => Some (JsonObject members, rest')
          | None => None
          end
      end
  | _ => scan_value input
  end.

Definition Load (text : string) : Expected Json :=
  match scan_document (skip_space (list_ascii_of_string text)) with
  | Some (j, rest) =>
      match skip_space rest with
      | [] => Value j
      | _ => Unexpected JsonError
      end
  | None => Unexpected JsonError
  end.

End json.

(** ** The key-value store (common/key_value_database.hpp) *)

Module kv_db.

(** The store's content: the value bytes of every key present. *)
Abbreviation KeyValueDatabase := (gmap string string).

(** Modelled from the spec: the store and its transactions are not
    among the sources.  Section 6: [Transaction.Read(key) -> bytes?],
    [Transaction.Write(key, bytes) -> Result],
    [Transaction.Remove(key) -> Result] ("removing an absent key is not
    an error").  A transaction works on its own copy of the content.
    Every operation may fail: [txn_faults] lists, operation by
    operation, whether the next one does. *)
Record Transaction := {
  txn_data : KeyValueDatabase;
  txn_faults : list bool;
}.

Definition next_fault (txn : Transaction) : bool * Transaction :=
  match txn_faults txn with
  | [] => (false, txn)
  | fault :: later => (fault, {| txn_data := txn_data txn; txn_faults := later |})
  end.

Definition Read (key : string) (txn : Transaction)
  : Expected (option string) * Transaction :=
  let '(fault, txn) := next_fault txn in
  if fault then (Unexpected DatabaseError, txn)
  else (Value (txn_data txn !! key), txn).

Definition Write (key value : string) (txn : Transaction) : Error * Transaction :=
  let '(fault, txn) := next_fault txn in
  if fault then (DatabaseError, txn)
  else (NoError, {| txn_data := <[key := value]> (txn_data txn);
                    txn_faults := txn_faults txn |}).

Definition Remove (key : string) (txn : Transaction) : Error * Transaction :=
  let '(fault, txn) := next_fault txn in
  if fault then (DatabaseError, txn)
  else (NoError, {| txn_data := delete key (txn_data txn);
                    txn_faults := txn_faults txn |}).

(** Modelled from the spec: [kv_db::ReadString(txn, key, value, true)].
    Section 4.5: a missing record reads as the empty string ("defaulting
    to absent reserved keys when the underlying record is empty"). *)
Definition ReadString (key : string) (txn : Transaction)
  : Error * string * Transaction :=
  match Read key txn with
  | (Value (Some bytes), txn) => (NoError, bytes, txn)
  | (Value None, txn) => (NoError, EmptyString, txn)
  | (Unexpected err, txn) => (err, EmptyString, txn)
  end.

(** Modelled from the spec: [KeyValueDatabase::WriteTransaction].
    Sections 5 and 6: "a transaction either completes and commits, or
    fails and the store discards all its writes"; commit or rollback is
    "driven by the scope's success/failure".  The commit is one more
    operation that may fail.  The result is the error and the store's
    content afterwards. *)
Definition WriteTransaction (store : KeyValueDatabase) (faults : list bool)
    (txnFunc : Transaction → Error * Transaction) : Error * KeyValueDatabase :=
  match txnFunc {| txn_data := store; txn_faults := faults |} with
  | (NoError, txn) =>
      let '(fault, txn) := next_fault txn in
      if fault then (DatabaseError, store) else (NoError, txn_data txn)
  | (err, _) => (err, store)
  end.

(** Modelled from the spec: [KeyValueDatabase::ReadTransaction]; what
    the function writes, if anything, is not kept. *)
Definition ReadTransaction {T} (store : KeyValueDatabase) (faults : list bool)
    (txnFunc : Transaction → T * Transaction) : T :=
  fst (txnFunc {| txn_data := store; txn_faults := faults |}).

(** Modelled from the spec: the store's own [Open] and [Remove], the
    calls [Initialize] makes outside a transaction.  Section 4.5:
    [Initialize] "opens the durable store at a fixed on-disk location and
    removes two cache-related keys [...] if present; absence of those keys
    is not an error, any other store failure is".  The handle is the
    store's content with the faults to come; each call is one operation
    and takes the next fault. *)
Record Store := {
  store_data : KeyValueDatabase;
  store_faults : list bool;
}.

Definition store_fault (db : Store) : bool * Store :=
  match store_faults db with
  | [] => (false, db)
  | fault :: later => (fault, {| store_data := store_data db; store_faults := later |})
  end.

Definition Store_Open (path : string) (db : Store) : Error * Store :=
  let '(fault, db) := store_fault db in
  if fault then (DatabaseError, db) else (NoError, db).

Definition Store_Remove (key : string) (db : Store) : Error * Store :=
  let '(fault, db) := store_fault db in
  if fault then (DatabaseError, db)
  else (NoError, {| store_data := delete key (store_data db);
                    store_faults := store_faults db |}).

End kv_db.

(** ** MenderContext: keys (context.cpp 50-58) *)

Definition artifact_name_key : string := "artifact-name".
Definition artifact_group_key : string := "artifact-group".
Definition artifact_provides_key : string := "artifact-provides".
Definition auth_token_name : string := "authtoken".
Definition auth_token_cache_invalidator_name : string := "auth-token-cache-invalidator".

(** ** LoadProvides (context.cpp 140-191) *)

(** Lines 180-182: [all_of(children, IsString)]. *)
Definition all_strings (children : list (string * json.Json)) : bool :=
  forallb (λ it, json.IsString it.2) children.

(** Lines 186-188: [ret[it.first] = it.second.GetString().value()]. *)
Fixpoint add_children (children : list (string * json.Json)) (ret : ProvidesData)
  : ProvidesData :=
  match children with
  | [] => ret
  | (key, json.JsonString value) :: rest => add_children rest (<[key := value]> ret)
  | _ :: rest => add_children rest ret
  end.

(** Lines 158-190, once the three records are read. *)
Definition provides_of_records (artifact_name artifact_group artifact_provides_str : string)
  : Expected ProvidesData :=
  let ret : ProvidesData := ∅ in
  let ret := if decide (artifact_name ≠ EmptyString)
             then <["artifact_name" := artifact_name]> ret else ret in
  let ret := if decide (artifact_group ≠ EmptyString)
             then <["artifact_group" := artifact_group]> ret else ret in
  if decide (artifact_provides_str = EmptyString) then Value ret
  else
    match json.Load artifact_provides_str with
    | Unexpected err => Unexpected err
    | Value j =>
        match json.GetChildren j with
        | Unexpected err => Unexpected err
        | Value children =>
            if all_strings children then Value (add_children children ret)
            else Unexpected JsonError
        end
    end.

Definition LoadProvides (txn : kv_db.Transaction)
  : Expected ProvidesData * kv_db.Transaction :=
  match kv_db.ReadString artifact_name_key txn with
  | (NoError, artifact_name, txn) =>
      match kv_db.ReadString artifact_group_key txn with
      | (NoError, artifact_group, txn) =>
          match kv_db.ReadString artifact_provides_key txn with
          | (NoError, artifact_provides_str, txn) =>
              (provides_of_records artifact_name artifact_group artifact_provides_str, txn)
          | (err, _, txn) => (Unexpected err, txn)
          end
      | (err, _, txn) => (Unexpected err, txn)
      end
  | (err, _, txn) => (Unexpected err, txn)
  end.

(** Lines 125-138: the overload that opens its own read transaction. *)
Definition LoadProvides_standalone (mender_store : kv_db.KeyValueDatabase)
    (faults : list bool) : Expected ProvidesData :=
  kv_db.ReadTransaction mender_store faults LoadProvides.

(** ** CommitArtifactData (context.cpp 286-378) *)

(** Lines 329-335: the pairs of the non-reserved keys, each followed by
    a comma, in the map's iteration order. *)
Definition quoted (s : string) : string :=
  String json.quote s +:+ String json.quote EmptyString.

Definition provides_pairs (modified_provides : ProvidesData) : string :=
  foldl (λ artifact_provides_str it,
           if decide (it.1 ≠ "artifact_name" ∧ it.1 ≠ "artifact_group")
           then artifact_provides_str +:+ quoted it.1 +:+ ":"
                  +:+ quoted (json.EscapeString it.2) +:+ ","
           else artifact_provides_str)
        "{" (map_to_list modified_provides).

(** Line 340: [str[str.length() - 1] = c]. *)
Fixpoint set_last (s : string) (c : ascii) : string :=
  match s with
  | EmptyString => EmptyString
  | String _ EmptyString => String c EmptyString
  | String x rest => String x (set_last rest c)
  end.

(** Lines 329-344. *)
Definition encode_provides (modified_provides : ProvidesData) : string :=
  let artifact_provides_str := provides_pairs modified_provides in
  if decide (artifact_provides_str ≠ "{") then set_last artifact_provides_str "}"
  else EmptyString.

(** [modified_provides[key]] read as a value: the mapped string, or the
    empty string [operator[]] inserts for a missing key. *)
Definition at_or_empty (modified_provides : ProvidesData) (key : string) : string :=
  default EmptyString (modified_provides !! key).

(** Lines 346-376: the three records, then the caller's function. *)
Definition write_records (modified_provides : ProvidesData)
    (txn_func : kv_db.Transaction → Error * kv_db.Transaction)
    (txn : kv_db.Transaction) : Error * kv_db.Transaction :=
  let artifact_provides_str := encode_provides modified_provides in
  if decide (at_or_empty modified_provides "artifact_name" ≠ EmptyString) then
    match kv_db.Write artifact_name_key (at_or_empty modified_provides "artifact_name") txn with
    | (NoError, txn) =>
        match (if decide (at_or_empty modified_provides "artifact_group" ≠ EmptyString)
               then kv_db.Write artifact_group_key
                      (at_or_empty modified_provides "artifact_group") txn
               else kv_db.Remove artifact_group_key txn) with
        | (NoError, txn) =>
            if decide (artifact_provides_str ≠ EmptyString) then
              match kv_db.Write artifact_provides_key artifact_provides_str txn with
              | (NoError, txn) => txn_func txn
              | failed => failed
              end
            else txn_func txn
        | failed => failed
        end
    | failed => failed
    end
  else (AssertionFailure, txn).

Section CommitArtifactData.
Context `{RegexLibrary}.

(** Lines 292-377: the function run inside the write transaction. *)
Definition commit_in_transaction (artifact_name artifact_group : string)
    (new_provides : option ProvidesData)
    (clears_provides : option ClearsProvidesData)
    (txn_func : kv_db.Transaction → Error * kv_db.Transaction)
    (txn : kv_db.Transaction) : Error * kv_db.Transaction :=
  match LoadProvides txn with
  | (Unexpected err, txn) => (err, txn)
  | (Value existing, txn) =>
      match merge_provides existing artifact_name artifact_group
              new_provides clears_provides with
      | (NoError, modified_provides) => write_records modified_provides txn_func txn
      | (err, _) => (err, txn)
      end
  end.

Definition CommitArtifactData (mender_store : kv_db.KeyValueDatabase)
    (faults : list bool) (artifact_name artifact_group : string)
    (new_provides : option ProvidesData)
    (clears_provides : option ClearsProvidesData)
    (txn_func : kv_db.Transaction → Error * kv_db.Transaction)
  : Error * kv_db.KeyValueDatabase :=
  kv_db.WriteTransaction mender_store faults
    (commit_in_transaction artifact_name artifact_group
       new_provides clears_provides txn_func).

End CommitArtifactData.

(** ** The file layer (common/io.hpp, <fstream>) *)

Module io.

(** An opened [ifstream]: the bytes not read yet, the three state bits,
    and for the reads to come, in order, the [errno] of each one the
    device fails ([None], also past the end of the list, for a read
    that works). *)
Record ifstream := {
  unread : list ascii;
  eofbit : bool;
  failbit : bool;
  badbit : bool;
  read_errno : list (option nat);
}.

Definition eof (stream : ifstream) : bool := eofbit stream.
Definition bad (stream : ifstream) : bool := badbit stream.
Definition good (stream : ifstream) : bool :=
  negb (eofbit stream) && negb (failbit stream) && negb (badbit stream).

Definition newline : ascii := ascii_of_nat 10.

(** The characters up to the first newline, what follows it, and
    whether the input ended before a newline was found. *)
Fixpoint extract_line (input : list ascii) : string * list ascii * bool :=
  match input with
  | [] => (EmptyString, [], true)
  | c :: rest =>
      if Ascii.eqb c newline then (EmptyString, rest, false)
      else let '(line, rest', ended) := extract_line rest in
           (String c line, rest', ended)
  end.

(** [std::getline(stream, line)] (C++ [string.io]).  On a stream that
    has a state bit set the call only adds [failbit] and leaves [line]
    alone.  Otherwise [line] is erased and characters are taken up to
    and without the newline; reaching the end sets [eofbit], taking
    nothing at all sets [failbit], a failing read sets [badbit].  The
    second component is [line] afterwards, the third the [errno] of a
    failed read. *)
Definition getline (stream : ifstream) (line : string)
  : ifstream * string * option nat :=
  if good stream then
    match read_errno stream with
    | Some errno :: later =>
        ({| unread := unread stream; eofbit := false; failbit := true;
            badbit := true; read_errno := later |}, EmptyString, Some errno)
    | reads =>
        let '(extracted, rest, ended) := extract_line (unread stream) in
        ({| unread := rest; eofbit := ended;
            failbit := match unread stream with [] => true | _ => false end;
            badbit := false; read_errno := tail reads |}, extracted, None)
    end
  else
    ({| unread := unread stream; eofbit := eofbit stream; failbit := true;
        badbit := badbit stream; read_errno := read_errno stream |}, line, None).

(** A file as the file system holds it: its bytes and how the device
    answers the reads. *)
Record file := {
  bytes : string;
  device_errno : list (option nat);
}.

Definition ENOENT : nat := 2.

(** Modelled from the spec: [io::OpenIfstream] is not among the
    sources.  Section 4.4: "Any I/O failure during read propagates as a
    reported error carrying the underlying OS error detail"; a path
    with no file is such a failure. *)
Definition OpenIfstream (fs : string → option file) (path : string)
  : Expected ifstream :=
  match fs path with
  | None => Unexpected (IoError ENOENT)
  | Some f =>
      Value {| unread := list_ascii_of_string (bytes f); eofbit := false;
               failbit := false; badbit := false; read_errno := device_errno f |}
  end.

End io.

(** ** GetDeviceType (context.cpp 193-235) *)

(** The configuration fields the function reads. *)
Record MenderConfig := {
  device_type_file : string;
  data_store : string;   (* config_.paths.GetDataStore() *)
}.

(** Modelled from the spec: [path::Join] is not among the sources; the
    default location of section 4.4 is the file [device_type] inside the
    data store directory. *)
Definition path_Join (prefix suffix : string) : string := prefix +:+ "/" +:+ suffix.

Definition eq_pos : nat := 12.

(** Lines 205-234, on the opened stream. *)
Definition read_device_type (stream : io.ifstream) : Expected string :=
  let '(stream, line, io_errno) := io.getline stream EmptyString in
  if io.bad stream then
    Unexpected (IoError (default 0 io_errno))
  else if decide (substring 0 eq_pos line ≠ "device_type=") then
    Unexpected ParseError
  else
    let ret := substring eq_pos (String.length line) line in
    if negb (io.eof stream) then
      let '(stream, line, _) := io.getline stream line in
      if bool_decide (line ≠ EmptyString) || negb (io.eof stream)
      then Unexpected ValueError
      else Value ret
    else Value ret.

Definition GetDeviceType (config : MenderConfig) (fs : string → option io.file)
  : Expected string :=
  let device_type_fpath :=
    if decide (device_type_file config ≠ EmptyString) then device_type_file config
    else path_Join (data_store config) "device_type" in
  match io.OpenIfstream fs device_type_fpath with
  | Unexpected err => Unexpected err
  | Value stream => read_device_type stream
  end.

(** ** Initialize (context.cpp 97-119) *)

(** [MENDER_USE_LMDB] is the build's choice between the two bodies. *)
Definition Initialize (MENDER_USE_LMDB : bool) (config : MenderConfig)
    (mender_store : kv_db.Store) : Error * kv_db.Store :=
  if MENDER_USE_LMDB then
    match kv_db.Store_Open (path_Join (data_store config) "mender-store") mender_store with
    | (NoError, mender_store) =>
        match kv_db.Store_Remove auth_token_name mender_store with
        | (NoError, mender_store) =>
            match kv_db.Store_Remove auth_token_cache_invalidator_name mender_store with
            | (NoError, mender_store) => (NoError, mender_store)
            | failed => failed
            end
        | failed => failed
        end
    | failed => failed
    end
  else (NoError, mender_store).

(** ** ArtifactMatchesContext (context.cpp 394-454) *)

(** Modelled from the spec: [common::MapContainsStringKey] is declared
    in common/common.hpp, which is not among the sources.  Section 4.6,
    condition 5 reads its use as "every key must exist in provides": the
    key is one of the map's keys. *)
Definition MapContainsStringKey (map : gmap string string) (key : string) : bool :=
  bool_decide (is_Some (map !! key)).

(** Modelled from the spec: [common::VectorContainsString], from the
    same header.  Section 4.6, condition 2: the list "must contain" the
    string. *)
Definition VectorContainsString (vec : list string) (str : string) : bool :=
  bool_decide (str ∈ vec).

(** [provides.at(key)]; every call below comes after
    [MapContainsStringKey] has answered true for [key]. *)
Definition map_at (provides : ProvidesData) (key : string) : string :=
  default EmptyString (provides !! key).

(** Lines 439-451: the loop over the type-info depends. *)
Fixpoint check_type_info_depends (provides : ProvidesData)
    (ti_depends : list (string * string)) : bool :=
  match ti_depends with
  | [] => true
  | it :: rest =>
      if negb (MapContainsStringKey provides it.1) then false
      else if decide (map_at provides it.1 ≠ it.2) then false
      else check_type_info_depends provides rest
  end.

(** Lines 411-418: the header's [artifact_name] depends, when present.
    [None] lets the function go on, [Some r] makes it return [r]. *)
Definition name_step (provides : ProvidesData) (names : option (list string))
  : option (Expected bool) :=
  match names with
  | Some names =>
      if negb (0 <? length names)%nat then Some (Unexpected AssertionFailure)
      else if negb (VectorContainsString names (map_at provides "artifact_name"))
      then Some (Value false)
      else None
  | None => None
  end.

(** Lines 420-432: the header's [artifact_group] depends, when present. *)
Definition group_step (provides : ProvidesData) (groups : option (list string))
  : option (Expected bool) :=
  match groups with
  | Some groups =>
      if negb (0 <? length groups)%nat then Some (Unexpected AssertionFailure)
      else if negb (MapContainsStringKey provides "artifact_group")
      then Some (Value false)
      else if negb (VectorContainsString groups (map_at provides "artifact_group"))
      then Some (Value false)
      else None
  | None => None
  end.

(** Lines 434-453: the type-info depends. *)
Definition type_info_step (provides : ProvidesData) (type_info : artifact.TypeInfo)
  : Expected bool :=
  match artifact.artifact_depends type_info with
  | None => Value true
  | Some ti_depends => Value (check_type_info_depends provides (map_to_list ti_depends))
  end.

Definition ArtifactMatchesContext (provides : ProvidesData) (device_type : string)
    (hdr_info : artifact.HeaderInfo) (type_info : artifact.TypeInfo) : Expected bool :=
  if negb (MapContainsStringKey provides "artifact_name") then Unexpected ValueError
  else
    let hdr_depends := artifact.depends hdr_info in
    if negb (0 <? length (artifact.device_type hdr_depends))%nat
    then Unexpected AssertionFailure
    else if negb (VectorContainsString (artifact.device_type hdr_depends) device_type)
    then Value false
    else
      match name_step provides (artifact.artifact_name hdr_depends) with
      | Some result => result
      | None =>
          match group_step provides (artifact.artifact_group hdr_depends) with
          | Some result => result
          | None => type_info_step provides type_info
          end
      end.

(** ** MatchesArtifactDepends (context.cpp 380-392) *)

Definition MatchesArtifactDepends (config : MenderConfig) (fs : string → option io.file)
    (mender_store : kv_db.KeyValueDatabase) (faults : list bool)
    (hdr_view : artifact.HeaderView) : Expected bool :=
  match GetDeviceType config fs with
  | Unexpected err => Unexpected err
  | Value device_type =>
      match LoadProvides_standalone mender_store faults with
      | Unexpected err => Unexpected err
      | Value provides =>
          ArtifactMatchesContext provides device_type
            (artifact.header_info hdr_view) (artifact.type_info hdr_view)
      end
  end.

(** ** A reference engine for the basic grammar

    [regex_constants::basic] selects the POSIX basic regular expressions
    (IEEE 1003.1, 9.3): [\(] and [\)] group, [\{m,n\}] repeats,
    [\1]..[\9] refer back to a closed group, [.] is any character but
    NUL, [*] repeats the atom before it, [^] and [$] are the anchors, a
    backslash before [.], [[], [\], [*], [^] or [$] makes it ordinary;
    a lone backslash at the end, an unmatched [\(] or [\)], a reference
    to a group that is not closed, or a bracket left open is a
    [regex_error].  Where POSIX leaves the meaning open the engine does
    as GNU libstdc++ does by default: a backslash before any other
    character gives that character, the anchors are anchors wherever they
    stand, and a repeat with nothing to repeat is an error.  Inside
    brackets single characters and ranges are read; the named classes
    [[:x:]], [[.x.]] and [[=x=]] are not, and count as errors.

    [FilterProvides] is stated over any [RegexLibrary]; this engine is
    the one the examples run on. *)

Module bre.

Local Open Scope char_scope.
Local Open Scope nat_scope.

Inductive item : Set :=
| IChar (c : ascii)
| IRange (lo hi : ascii).

Inductive token : Set :=
| TChar (c : ascii)
| TAny
| TStar
| TBol
| TEol
| TOpen
| TClose
| TBackref (n : nat)
| TInterval (lo : nat) (hi : option nat)
| TBracket (neg : bool) (items : list item).

(** Where the scanner is. *)
Inductive mode : Set :=
| Normal
| Escaped
| BraceLo (lo : option nat)
| BraceHi (lo : nat) (hi : option nat)
| BraceEnd (lo : nat) (hi : option nat)
| BracketStart
| Bracket (neg first : bool) (last : option ascii) (dash : bool) (items : list item).

Definition digit (c : ascii) : option nat :=
  let n := nat_of_ascii c in
  if (48 <=? n) && (n <=? 57) then Some (n - 48) else None.

Definition flush (last : option ascii) (items : list item) : list item :=
  match last with
  | Some c => (items ++ [IChar c])%list
  | None => items
  end.

Definition emit (t : token) (r : option (list token)) : option (list token) :=
  match r with
  | Some ts => Some (t :: ts)
  | None => None
  end.

Fixpoint scan (m : mode) (input : list ascii) : option (list token) :=
  match input with
  | [] => match m with Normal => Some [] | _ => None end
  | c :: rest =>
      match m with
      | Normal =>
          if Ascii.eqb c "\" then scan Escaped rest
          else if Ascii.eqb c "[" then scan BracketStart rest
          else if Ascii.eqb c "." then emit TAny (scan Normal rest)
          else if Ascii.eqb c "*" then emit TStar (scan Normal rest)
          else if Ascii.eqb c "^" then emit TBol (scan Normal rest)
          else if Ascii.eqb c "$" then emit TEol (scan Normal rest)
          else emit (TChar c) (scan Normal rest)
      | Escaped =>
          if Ascii.eqb c "(" then emit TOpen (scan Normal rest)
          else if Ascii.eqb c ")" then emit TClose (scan Normal rest)
          else if Ascii.eqb c "{" then scan (BraceLo None) rest
          else
            match digit c with
            | Some (S n) => emit (TBackref (S n)) (scan Normal rest)
            | _ => emit (TChar c) (scan Normal rest)
            end
      | BraceLo lo =>
          match digit c, lo with
          | Some d, None => scan (BraceLo (Some d)) rest
          | Some d, Some n => scan (BraceLo (Some (10 * n + d))) rest
          | None, Some n =>
              if Ascii.eqb c "," then scan (BraceHi n None) rest
              else if Ascii.eqb c "\" then scan (BraceEnd n (Some n)) rest
              else None
          | None, None => None
          end
      | BraceHi lo hi =>
          match digit c with
          | Some d => scan (BraceHi lo (Some (10 * default 0 hi + d))) rest
          | None => if Ascii.eqb c "\" then scan (BraceEnd lo hi) rest else None
          end
      | BraceEnd lo hi =>
          if Ascii.eqb c "}" then
            if match hi with Some h => h <? lo | None => false end then None
            else emit (TInterval lo hi) (scan Normal rest)
          else None
      | BracketStart =>
          if Ascii.eqb c "^" then scan (Bracket true true None false []) rest
          else if Ascii.eqb c "-" then scan (Bracket false false (Some c) false []) rest
          else if Ascii.eqb c "[" then
            match rest with
            | c2 :: _ =>
                if Ascii.eqb c2 "." || Ascii.eqb c2 ":" || Ascii.eqb c2 "=" then None
                else scan (Bracket false false (Some c) false []) rest
            | [] => None
            end
          else scan (Bracket false false (Some c) false []) rest
      | Bracket neg first last dash items =>
          if Ascii.eqb c "]" && negb first then
            emit (TBracket neg (flush (if dash then Some "-" else None) (flush last items)))
                 (scan Normal rest)
          else if Ascii.eqb c "[" &&
                  match rest with
                  | c2 :: _ => Ascii.eqb c2 "." || Ascii.eqb c2 ":" || Ascii.eqb c2 "="
                  | [] => true
                  end
          then None
          else if first then scan (Bracket neg false (Some c) false items) rest
          else if dash then
            match last with
            | Some l =>
                if nat_of_ascii c <? nat_of_ascii l then None
                else scan (Bracket neg false None false (items ++ [IRange l c])%list) rest
            | None => None
            end
          else if Ascii.eqb c "-" then scan (Bracket neg false last true items) rest
          else scan (Bracket neg false (Some c) false (flush last items)) rest
      end
  end.

(** The compiled expression. *)
Inductive re : Set :=
| REmpty
| RChar (c : ascii)
| RAny
| RSet (neg : bool) (items : list item)
| RBol
| REol
| RBackref (n : nat)
| RGroup (n : nat) (body : re)
| RRepeat (lo : nat) (hi : option nat) (body : re)
| RCat (r1 r2 : re).

(** The terms of a sequence in reverse order, made one expression. *)
Fixpoint sequence (rev_terms : list re) (tail : re) : re :=
  match rev_terms with
  | [] => tail
  | r :: earlier => sequence earlier (RCat r tail)
  end.

(** An open group: its number and the terms read before it. *)
Definition frame : Set := nat * list re.

(** The parser: [terms] are the terms of the sequence being read, in
    reverse; [atom] tells whether the last one can take a repeat;
    [groups] counts the groups opened so far; [open] holds the groups
    not closed yet. *)
Fixpoint parse (tokens : list token) (terms : list re) (atom : bool)
    (groups : nat) (open : list frame) : option re :=
  match tokens with
  | [] => match open with [] => Some (sequence terms REmpty) | _ => None end
  | t :: rest =>
      match t with
      | TChar c => parse rest (RChar c :: terms) true groups open
      | TAny => parse rest (RAny :: terms) true groups open
      | TBracket neg items => parse rest (RSet neg items :: terms) true groups open
      | TBol => parse rest (RBol :: terms) false groups open
      | TEol => parse rest (REol :: terms) false groups open
      | TBackref n =>
          if (n <=? groups) && negb (existsb (λ f : frame, f.1 =? n) open)
          then parse rest (RBackref n :: terms) true groups open
          else None
      | TStar =>
          match atom, terms with
          | true, r :: earlier => parse rest (RRepeat 0 None r :: earlier) true groups open
          | _, _ => None
          end
      | TInterval lo hi =>
          match atom, terms with
          | true, r :: earlier => parse rest (RRepeat lo hi r :: earlier) true groups open
          | _, _ => None
          end
      | TOpen => parse rest [] false (S groups) ((S groups, terms) :: open)
      | TClose =>
          match open with
          | (n, earlier) :: outer =>
              parse rest (RGroup n (sequence terms REmpty) :: earlier) true groups outer
          | [] => None
          end
      end
  end.

Definition compile (pattern : string) : option re :=
  match scan Normal (list_ascii_of_string pattern) with
  | Some tokens => parse tokens [] false 0 []
  | None => None
  end.

(** *** Matching *)

Definition in_item (x : ascii) (i : item) : bool :=
  match i with
  | IChar c => Ascii.eqb x c
  | IRange lo hi => (nat_of_ascii lo <=? nat_of_ascii x) && (nat_of_ascii x <=? nat_of_ascii hi)
  end.

Definition captures : Set := list (nat * list ascii).

Fixpoint captured (n : nat) (caps : captures) : option (list ascii) :=
  match caps with
  | [] => None
  | (m, w) :: older => if m =? n then Some w else captured n older
  end.

Fixpoint strip_prefix (w s : list ascii) : option (list ascii) :=
  match w, s with
  | [], _ => Some s
  | a :: w', b :: s' => if Ascii.eqb a b then strip_prefix w' s' else None
  | _ :: _, [] => None
  end.

(** What is left to match after a piece: the position, the rest of
    the subject and the captures so far. *)
Definition continuation : Type := nat → list ascii → captures → bool.

(** The repeats, over the matcher [body] of the repeated expression.
    Up to [count] more rounds: *)
Fixpoint repeat_bounded (body : nat → list ascii → captures → continuation → bool)
    (k : continuation) (count : nat) (pos : nat) (s : list ascii) (caps : captures)
  : bool :=
  k pos s caps ||
  match count with
  | S count' => body pos s caps (repeat_bounded body k count')
  | O => false
  end.

(** Any number of rounds, each of which consumes input; the length of
    the subject bounds their number. *)
Fixpoint repeat_unbounded (body : nat → list ascii → captures → continuation → bool)
    (k : continuation) (fuel : nat) (pos : nat) (s : list ascii) (caps : captures)
  : bool :=
  k pos s caps ||
  match fuel with
  | S fuel' =>
      body pos s caps
           (λ pos' s' caps',
              (length s' <? length s) && repeat_unbounded body k fuel' pos' s' caps')
  | O => false
  end.

(** The [lo] rounds that must happen, then the others. *)
Fixpoint repeat_required (body : nat → list ascii → captures → continuation → bool)
    (k : continuation) (lo : nat) (hi : option nat) (count : nat)
    (pos : nat) (s : list ascii) (caps : captures) : bool :=
  match count with
  | S count' => body pos s caps (repeat_required body k lo hi count')
  | O =>
      match hi with
      | Some h => repeat_bounded body k (h - lo) pos s caps
      | None => repeat_unbounded body k (length s) pos s caps
      end
  end.

(** [run r pos s caps k]: some way of matching [r] at the front of [s],
    [pos] characters into the subject, leads to success of [k] on what
    is left. *)
Fixpoint run (r : re) (pos : nat) (s : list ascii) (caps : captures)
    (k : continuation) {struct r} : bool :=
  match r with
  | REmpty => k pos s caps
  | RChar c =>
      match s with
      | x :: s' => Ascii.eqb x c && k (S pos) s' caps
      | [] => false
      end
  | RAny =>
      match s with
      | x :: s' => negb (Ascii.eqb x zero) && k (S pos) s' caps
      | [] => false
      end
  | RSet neg items =>
      match s with
      | x :: s' => xorb neg (existsb (in_item x) items) && k (S pos) s' caps
      | [] => false
      end
  | RBol => (pos =? 0) && k pos s caps
  | REol => match s with [] => k pos s caps | _ => false end
  | RBackref n =>
      match captured n caps with
      | Some w =>
          match strip_prefix w s with
          | Some s' => k (pos + length w) s' caps
          | None => false
          end
      | None => false
      end
  | RGroup n body =>
      run body pos s caps
          (λ pos' s' caps', k pos' s' ((n, take (pos' - pos) s) :: caps'))
  | RCat r1 r2 => run r1 pos s caps (λ pos' s' caps', run r2 pos' s' caps' k)
  | RRepeat lo hi body => repeat_required (run body) k lo hi lo pos s caps
  end.

Definition full_match (subject : string) (r : re) : bool :=
  run r 0 (list_ascii_of_string subject) []
      (λ _ s _, match s with [] => true | _ => false end).

End bre.

#[global] Instance posix_basic : RegexLibrary := {|
  regex := bre.re;
  regex_assign_basic := bre.compile;
  regex_match := bre.full_match;
|}.

(** * Specification-side definitions *)

(** ** The merge *)

Section MergeSpec.
Context `{RegexLibrary}.

(** Section 4.1: "remove every key that fully matches". *)
Definition remove_matching (compiled : regex) (m : ProvidesData) : ProvidesData :=
  filter (λ kv : string * string, regex_match kv.1 compiled = false) m.

(** Section 4.2: "apply Pattern Filter for each pattern in sequence
    (cumulative)"; [None] when a pattern does not compile. *)
Fixpoint filter_patterns (clears : ClearsProvidesData) (m : ProvidesData)
  : option ProvidesData :=
  match clears with
  | [] => Some m
  | pattern :: rest =>
      match regex_assign_basic (escape pattern) with
      | Some compiled => filter_patterns rest (remove_matching compiled m)
      | None => None
      end
  end.


End MergeSpec.

(** Section 4.2: a non-empty argument "overwrites the corresponding
    reserved key in the result"; every other key reads as in [merged]. *)
Definition overwritten (artifact_name artifact_group : string) (merged : ProvidesData)
    (key : string) : option string :=
  if decide (key = "artifact_name" ∧ artifact_name ≠ EmptyString) then Some artifact_name
  else if decide (key = "artifact_group" ∧ artifact_group ≠ EmptyString)
       then Some artifact_group
       else merged !! key.

(** ** The compatibility matcher *)

(** Section 3: the lists of a [HeaderDepends] are never empty. *)
Definition populated (d : artifact.Depends) : Prop :=
  artifact.device_type d ≠ []
  ∧ (∀ names, artifact.artifact_name d = Some names → names ≠ [])
  ∧ (∀ groups, artifact.artifact_group d = Some groups → groups ≠ []).

(** Section 4.6, conditions 2 to 5, with "contains" read as key presence. *)
Definition compatible (provides : ProvidesData) (device_type : string)
    (d : artifact.Depends) (type_info : artifact.TypeInfo) : Prop :=
  device_type ∈ artifact.device_type d
  ∧ (∀ names, artifact.artifact_name d = Some names →
       ∃ name, provides !! "artifact_name" = Some name ∧ name ∈ names)
  ∧ (∀ groups, artifact.artifact_group d = Some groups →
       ∃ group, provides !! "artifact_group" = Some group ∧ group ∈ groups)
  ∧ (∀ ti_depends, artifact.artifact_depends type_info = Some ti_depends →
       ∀ key value, ti_depends !! key = Some value → provides !! key = Some value).

(** Section 4.6, condition 1 as the spec words it: a value that is there
    and is not the empty string. *)
Definition has_non_empty (provides : ProvidesData) (key : string) : Prop :=
  ∃ value, provides !! key = Some value ∧ value ≠ EmptyString.

(** The provides name is among the names the header lists, when it lists
    any. *)
Definition listed_name (provides : ProvidesData) (d : artifact.Depends) : Prop :=
  ∀ names, artifact.artifact_name d = Some names → map_at provides "artifact_name" ∈ names.

(** The matcher comes to a list that is there and empty: the device
    types; or, the device type being listed, the names; or, the name being
    listed too, the groups. *)
Definition empty_list_reached (provides : ProvidesData) (device_type : string)
    (d : artifact.Depends) : Prop :=
  artifact.device_type d = []
  ∨ (device_type ∈ artifact.device_type d
     ∧ (artifact.artifact_name d = Some []
        ∨ (listed_name provides d ∧ artifact.artifact_group d = Some []))).

(** The header of an artifact that depends on one device type, one
    artifact name and the given provides. *)
Definition depends_on (device_type artifact_name : string) (provides : ProvidesData)
  : artifact.HeaderView :=
  {| artifact.header_info :=
       {| artifact.depends :=
            {| artifact.device_type := [device_type];
               artifact.artifact_name := Some [artifact_name];
               artifact.artifact_group := None |} |};
     artifact.type_info := {| artifact.artifact_depends := Some provides |} |}.

(** ** The glob *)

(** Section 4.1 in its own words: [*] matches zero or more arbitrary
    characters, every other character matches itself, and the whole key
    has to match. *)
Fixpoint glob_match (pattern : list ascii) : list ascii → bool :=
  match pattern with
  | [] => λ key, match key with [] => true | _ => false end
  | c :: pattern' =>
      if Ascii.eqb c "*" then
        fix star (key : list ascii) : bool :=
          glob_match pattern' key ||
          match key with
          | _ :: key' => star key'
          | [] => false
          end
      else
        λ key, match key with
               | x :: key' => Ascii.eqb x c && glob_match pattern' key'
               | [] => false
               end
  end.

Definition glob (pattern key : string) : bool :=
  glob_match (list_ascii_of_string pattern) (list_ascii_of_string key).

(** A key that none of the patterns matches as a glob. *)
Definition survives (clears : ClearsProvidesData) (key : string) : bool :=
  forallb (λ pattern, negb (glob pattern key)) clears.

(** The characters that the escaping of [FilterProvides] makes literal
    in the basic grammar, or leaves literal: all but the backslash, which
    it does not escape, the three it turns into the operators [\(], [\)]
    and [\{], and the five whose escaped form POSIX leaves undefined. *)
Definition literal_char (c : ascii) : bool :=
  negb (any_of_eq "\(){}+?|]" c).

Definition literal_pattern (pattern : string) : Prop :=
  Forall (λ c, literal_char c = true) (list_ascii_of_string pattern).

(** Keys without the NUL character, the one character [.] does not
    match. *)
Definition nul_free (key : string) : Prop :=
  zero ∉ list_ascii_of_string key.

(** The tokens and the terms a literal pattern stands for, and the
    continuation that asks for the end of the key. *)
Definition glob_tokens (pattern : string) : list bre.token :=
  flat_map (λ c, if Ascii.eqb c "*" then [bre.TAny; bre.TStar] else [bre.TChar c])
           (list_ascii_of_string pattern).

Definition glob_terms (pattern : list ascii) : list bre.re :=
  map (λ c, if Ascii.eqb c "*" then bre.RRepeat 0 None bre.RAny else bre.RChar c) pattern.

Definition end_of_key : bre.continuation :=
  λ _ s _, match s with [] => true | _ => false end.

(** ** Files, stores and continuations to run the functions on *)

(** A stream just opened on [content], on a device that reads well. *)
Definition opened (content : string) : io.ifstream :=
  {| io.unread := list_ascii_of_string content; io.eofbit := false;
     io.failbit := false; io.badbit := false; io.read_errno := [] |}.

(** The quote character as a string, to write JSON text with. *)
Definition quote_mark : string := String json.quote EmptyString.

(** A continuation that adds nothing and succeeds. *)
Definition no_more_writes (txn : kv_db.Transaction) : Error * kv_db.Transaction :=
  (NoError, txn).

(** A file that reads without device errors, at every path. *)
Definition readable (content : string) (path : string) : option io.file :=
  Some {| io.bytes := content; io.device_errno := [] |}.

Definition nl : string := String io.newline EmptyString.

Definition no_newline (s : string) : Prop :=
  io.newline ∉ list_ascii_of_string s.

(** The file [GetDeviceType] opens (lines 194-199). *)
Definition device_type_path (config : MenderConfig) : string :=
  if decide (device_type_file config ≠ EmptyString) then device_type_file config
  else path_Join (data_store config) "device_type".

(** ** The blob as text

    The characters a key can hold for the blob to stay JSON as line 333
    writes it: printable ASCII other than the quote and the backslash;
    and the characters of a value: ASCII, which [EscapeString] escapes
    where needed. *)
Definition plain_char (c : ascii) : bool :=
  let n := json.code c in
  ((32 <=? n) && (n <? 128) && negb (n =? 34) && negb (n =? 92))%N.

Definition ascii_char (c : ascii) : bool := (json.code c <? 128)%N.

(** The text of one member, and of the members of a non-empty object up
    to and with its closing brace. *)
Definition member_text (it : string * string) : string :=
  quoted it.1 +:+ ":" +:+ quoted (json.EscapeString it.2).

Fixpoint members_text (members : list (string * string)) : string :=
  match members with
  | [] => EmptyString
  | [it] => member_text it +:+ "}"
  | it :: rest => member_text it +:+ "," +:+ members_text rest
  end.

(** The members as lines 330-335 write them, a comma after each. *)
Definition pairs_text (members : list (string * string)) : string :=
  foldr (λ it text, member_text it +:+ "," +:+ text) EmptyString members.

Definition not_reserved (key : string) : Prop :=
  key ≠ "artifact_name" ∧ key ≠ "artifact_group".

Definition plain_key (key : string) : Prop :=
  Forall (λ c, plain_char c = true) (list_ascii_of_string key).

Definition ascii_value (value : string) : Prop :=
  Forall (λ c, ascii_char c = true) (list_ascii_of_string value).

Definition safe_member (it : string * string) : Prop :=
  plain_key it.1 ∧ ascii_value it.2.

#[global] Instance not_reserved_dec (key : string) : Decision (not_reserved key).
Proof. unfold not_reserved. apply _. Defined.

(** What [LoadProvides] starts from: the reserved keys of the two
    records that are not empty (lines 158-164). *)
Definition reserved_records (artifact_name artifact_group : string) : ProvidesData :=
  let ret : ProvidesData := ∅ in
  let ret := if decide (artifact_name ≠ EmptyString)
             then <["artifact_name" := artifact_name]> ret else ret in
  if decide (artifact_group ≠ EmptyString)
  then <["artifact_group" := artifact_group]> ret else ret.

(** The entries that go into the blob. *)
Definition blob_entries (M : ProvidesData) : list (string * string) :=
  filter (λ it, not_reserved it.1) (map_to_list M).

(** The non-reserved part of a mapping. *)
Definition free_part (M : ProvidesData) : ProvidesData :=
  filter (λ it, not_reserved it.1) M.

(** Every non-reserved entry can be written into the blob as it is. *)
Definition blob_safe (M : ProvidesData) : Prop :=
  ∀ key value, M !! key = Some value → not_reserved key →
    plain_key key ∧ ascii_value value.

(** The string a decoded object gives for a key: that of its last member
    with the key. *)
Fixpoint member_value (children : list (string * json.Json)) (key : string)
  : option string :=
  match children with
  | [] => None
  | (k, j) :: rest =>
      match member_value rest key with
      | Some value => Some value
      | None =>
          match j with
          | json.JsonString value => if decide (k = key) then Some value else None
          | _ => None
          end
      end
  end.

(** ** The store after a commit *)

(** The value [ReadString] gives for a record: its bytes, or the empty
    string when the store has no such key. *)
Definition record (store : kv_db.KeyValueDatabase) (key : string) : string :=
  default EmptyString (store !! key).

(** The store after the three records of lines 346-375 are written for
    the merged provides. *)
Definition written (modified_provides : ProvidesData) (store : kv_db.KeyValueDatabase)
  : kv_db.KeyValueDatabase :=
  let named :=
    <[artifact_name_key := at_or_empty modified_provides "artifact_name"]> store in
  let grouped :=
    if decide (at_or_empty modified_provides "artifact_group" ≠ EmptyString)
    then <[artifact_group_key := at_or_empty modified_provides "artifact_group"]> named
    else delete artifact_group_key named in
  if decide (encode_provides modified_provides ≠ EmptyString)
  then <[artifact_provides_key := encode_provides modified_provides]> grouped
  else grouped.

(** What [LoadProvides] gives back of a mapping that was committed:
    all of it but a reserved key whose value is the empty string. *)
Definition loadable (M : ProvidesData) : ProvidesData :=
  filter (λ kv : string * string, not_reserved kv.1 ∨ kv.2 ≠ EmptyString) M.

(** The three keys of the store that hold the provides. *)
Definition provides_record_key (key : string) : Prop :=
  key = artifact_name_key ∨ key = artifact_group_key ∨ key = artifact_provides_key.

(** One of the first [operations] operations on the store fails. *)
Definition faulty (operations : nat) (faults : list bool) : bool :=
  existsb id (take operations faults).

(** The operations of a commit whose continuation does none: three
    reads, two or three writes and removals, and the commit itself. *)
Definition commit_operations (M : ProvidesData) : nat :=
  if decide (encode_provides M ≠ EmptyString) then 7 else 6.

Section ClearPatterns.
Context `{RegexLibrary}.

(** The compiled clear patterns, when all of them compile. *)
Fixpoint compile_all (clears : ClearsProvidesData) : option (list regex) :=
  match clears with
  | [] => Some []
  | pattern :: rest =>
      match regex_assign_basic (escape pattern), compile_all rest with
      | Some compiled, Some others => Some (compiled :: others)
      | _, _ => None
      end
  end.

(** A key that none of the patterns matches. *)
Definition kept (compiled : list regex) (key : string) : bool :=
  forallb (λ r, negb (regex_match key r)) compiled.

End ClearPatterns.

(** ** Inputs used by the examples *)

(** The scenario of section 8 for the matcher. *)
Definition qemu_depends : artifact.HeaderInfo :=
  {| artifact.depends :=
       {| artifact.device_type := ["qemu"];
          artifact.artifact_name := None;
          artifact.artifact_group := Some ["g1"; "g2"] |} |}.

Definition checksum_depends : artifact.TypeInfo :=
  {| artifact.artifact_depends := Some {[ "rootfs-image.checksum" := "abc" ]} |}.

Definition app_provides : ProvidesData :=
  {[ "artifact_name" := "app"; "artifact_group" := "g1";
     "rootfs-image.checksum" := "abc" ]}.

(** Provides whose [artifact_name] is there and empty. *)
Definition unnamed_provides : ProvidesData := {[ "artifact_name" := EmptyString ]}.

Definition any_qemu : artifact.HeaderInfo :=
  {| artifact.depends :=
       {| artifact.device_type := ["qemu"];
          artifact.artifact_name := None;
          artifact.artifact_group := None |} |}.

Definition no_type_info : artifact.TypeInfo := {| artifact.artifact_depends := None |}.

(** A store left by an earlier artifact that had one provides key. *)
Definition earlier_store : kv_db.KeyValueDatabase :=
  {[ artifact_name_key := "old";
     artifact_provides_key := "{" +:+ quoted "a" +:+ ":" +:+ quoted "b" +:+ "}" ]}.

(** A continuation that writes a record and then reports an error. *)
Definition failing_writes (txn : kv_db.Transaction) : Error * kv_db.Transaction :=
  (CallerError 1, (kv_db.Write "state" "x" txn).2).

(** Two provides keys and a clear pattern with parentheses. *)
Definition paren_provides : ProvidesData := {[ "a" := "1"; "(a)" := "2" ]}.

(** A provides key with a quote in it, and one that reads as two
    members once it stands between the quotes of the blob. *)
Definition quote_key : string := "a" +:+ quote_mark +:+ "b".
Definition members_key : string :=
  "a" +:+ quote_mark +:+ ":" +:+ quote_mark +:+ "b" +:+ quote_mark +:+ "," +:+ quote_mark +:+ "c".

(** A store whose provides record is not JSON text. *)
Definition corrupt_store : kv_db.KeyValueDatabase := {[ artifact_provides_key := "{" ]}.

(** A file system without files, and a configuration that names no
    device type file. *)
Definition no_files (path : string) : option io.file := None.

Definition default_config : MenderConfig :=
  {| device_type_file := EmptyString; data_store := "/var/lib/mender" |}.

(** One provides entry, and a header that lists no device type. *)
Definition one_provides : ProvidesData := {[ "a" := "b" ]}.

Definition no_device : artifact.HeaderInfo :=
  {| artifact.depends :=
       {| artifact.device_type := [];
          artifact.artifact_name := None;
          artifact.artifact_group := None |} |}.

(** A store handle that holds an authentication token and does not
    fail. *)
Definition token_store : kv_db.Store :=
  {| kv_db.store_data := {[ auth_token_name := "t"; artifact_name_key := "n" ]};
     kv_db.store_faults := [] |}.

(** String append computes under [simpl] in the proofs below. *)
#[local] Arguments String.append !s1 s2 : simpl nomatch.

(** * Facts about strings *)

Lemma append_assoc (a b c : string) : (a +:+ b) +:+ c = a +:+ b +:+ c.
Proof. induction a as [|x a IH]; simpl; [done | by rewrite IH]. Qed.

Lemma append_empty_r (a : string) : a +:+ EmptyString = a.
Proof. induction a as [|x a IH]; simpl; [done | by rewrite IH]. Qed.

(** * The merge *)

Section MergeResults.
Context `{RegexLibrary}.

Lemma matching_keys_spec (compiled : regex) (m : ProvidesData) (key : string) :
  key ∈ matching_keys compiled m ↔ is_Some (m !! key) ∧ regex_match key compiled = true.
Proof.
  unfold matching_keys.
  apply (map_fold_weak_ind (λ (keys : gset string) (m : ProvidesData),
           key ∈ keys ↔ is_Some (m !! key) ∧ regex_match key compiled = true)).
  - rewrite lookup_empty. split; [set_solver | intros [[] _]; done].
  - intros i x m' keys Hfresh IH.
    destruct (decide (key = i)) as [->|Hne].
    + rewrite lookup_insert_eq. destruct (regex_match i compiled) eqn:Hm.
      * split; [eauto | intros _; apply elem_of_union_l, elem_of_singleton; done].
      * rewrite IH, Hfresh. split; [intros [[] _]; done | intros [_ ?]; done].
    + rewrite lookup_insert_ne by done.
      destruct (regex_match i compiled); [|done].
      rewrite elem_of_union, elem_of_singleton, IH. tauto.
Qed.

Lemma erase_keys_lookup (keys : gset string) (m : ProvidesData) (key : string) :
  erase_keys keys m !! key = if decide (key ∈ keys) then None else m !! key.
Proof.
  unfold erase_keys.
  refine (set_fold_ind_L (λ (r : ProvidesData) (X : gset string),
            r !! key = if decide (key ∈ X) then None else m !! key) _ _ _ _ keys).
  - by rewrite decide_False by set_solver.
  - intros x X r Hx IH. destruct (decide (key = x)) as [->|Hne].
    + rewrite lookup_delete_eq, decide_True by set_solver. done.
    + rewrite lookup_delete_ne, IH by done.
      destruct (decide (key ∈ X)).
      * rewrite decide_True by set_solver. done.
      * rewrite decide_False by set_solver. done.
Qed.

(** One round of the loop removes exactly the matching keys. *)
Lemma erase_matching (compiled : regex) (m : ProvidesData) :
  erase_keys (matching_keys compiled m) m = remove_matching compiled m.
Proof.
  apply map_eq. intros key. unfold remove_matching.
  rewrite erase_keys_lookup, map_lookup_filter.
  destruct (m !! key) as [v|] eqn:Hv; simpl.
  - destruct (regex_match key compiled) eqn:Hm.
    + rewrite decide_True by (apply matching_keys_spec; rewrite Hv; eauto).
      by rewrite option_guard_False.
    + rewrite decide_False.
      * by rewrite option_guard_True.
      * rewrite matching_keys_spec. intros [_ ?]; congruence.
  - destruct (decide _); done.
Qed.

Lemma add_provides_union (new_provides m : ProvidesData) :
  add_provides new_provides m = new_provides ∪ m.
Proof.
  unfold add_provides.
  apply (map_fold_weak_ind (λ (r : ProvidesData) (n : ProvidesData), r = n ∪ m)).
  - by rewrite (left_id_L ∅ (∪)).
  - intros i x n r _ ->. by rewrite insert_union_l.
Qed.

Lemma clear_loop_spec (clears : ClearsProvidesData) (m : ProvidesData) :
  match filter_patterns clears m with
  | Some filtered => clear_loop clears m = (NoError, filtered)
  | None => (clear_loop clears m).1 = AssertionFailure
  end.
Proof.
  revert m. induction clears as [|pattern rest IH]; intros m; simpl; [done|].
  destruct (regex_assign_basic (escape pattern)) as [compiled|]; [|done].
  rewrite erase_matching. apply IH.
Qed.

Lemma FilterProvides_spec (new_provides : ProvidesData)
    (clears : ClearsProvidesData) (m : ProvidesData) :
  match filter_patterns clears m with
  | Some filtered => FilterProvides new_provides clears m = (NoError, new_provides ∪ filtered)
  | None => (FilterProvides new_provides clears m).1 = AssertionFailure
  end.
Proof.
  unfold FilterProvides. pose proof (clear_loop_spec clears m) as Hloop.
  destruct (filter_patterns clears m) as [filtered|].
  - rewrite Hloop. by rewrite add_provides_union.
  - destruct (clear_loop clears m) as [err left]. simpl in *. by subst err.
Qed.

Lemma set_reserved_lookup (artifact_name artifact_group : string)
    (merged : ProvidesData) (key : string) :
  set_reserved artifact_name artifact_group merged !! key
  = overwritten artifact_name artifact_group merged key.
Proof.
  unfold set_reserved, overwritten.
  destruct (decide (artifact_name ≠ EmptyString)) as [Hn|Hn],
           (decide (artifact_group ≠ EmptyString)) as [Hg|Hg];
    destruct (decide (key = "artifact_name")) as [Hkn|Hkn];
    destruct (decide (key = "artifact_group")) as [Hkg|Hkg];
    try (subst key; discriminate);
    repeat first [ rewrite decide_True by done
                 | rewrite decide_False by (intros [? ?]; done) ];
    subst; simplify_map_eq; done.
Qed.


End MergeResults.

(** * The glob filter on literal patterns *)

Section GlobFacts.
Import bre.
Local Open Scope char_scope.
Local Open Scope nat_scope.
Local Open Scope list_scope.

Lemma scan_escape (pattern : string) :
literal_pattern pattern →
scan Normal (list_ascii_of_string (escape pattern)) = Some (glob_tokens pattern).
Proof.
unfold literal_pattern, glob_tokens.
induction pattern as [|c rest IH]; intros Hlit; [done|].
apply Forall_cons in Hlit as [Hc Hrest]. specialize (IH Hrest).
destruct c as [b0 b1 b2 b3 b4 b5 b6 b7].
destruct b0, b1, b2, b3, b4, b5, b6, b7; try discriminate Hc;
  simpl in *; rewrite IH; reflexivity.
Qed.

Lemma sequence_rev (terms acc : list re) (tail : re) :
sequence (rev terms ++ acc) tail = sequence acc (foldr RCat tail terms).
Proof.
revert acc. induction terms as [|r terms IH]; intros acc; simpl; [done|].
rewrite <- app_assoc. simpl. by rewrite IH.
Qed.

Lemma parse_glob (pattern : list ascii) (terms : list re) (atom : bool) :
parse (flat_map (λ c, if Ascii.eqb c "*" then [TAny; TStar] else [TChar c]) pattern)
      terms atom 0 []
= Some (sequence (rev (glob_terms pattern) ++ terms) REmpty).
Proof.
revert terms atom. induction pattern as [|c rest IH]; intros terms atom; simpl; [done|].
destruct (Ascii.eqb c "*"); simpl; rewrite IH, <- app_assoc; done.
Qed.

Lemma compile_escape (pattern : string) :
literal_pattern pattern →
compile (escape pattern)
= Some (foldr RCat REmpty (glob_terms (list_ascii_of_string pattern))).
Proof.
intros Hlit. unfold compile. rewrite scan_escape by done.
unfold glob_tokens. rewrite parse_glob, app_nil_r.
by rewrite <- (app_nil_r (rev _)), sequence_rev.
Qed.

Lemma repeat_any (k : continuation) (spec : list ascii → bool) :
(∀ pos key caps, zero ∉ key → k pos key caps = spec key) →
∀ (fuel pos : nat) (key : list ascii) (caps : captures),
  List.length key ≤ fuel → zero ∉ key →
  repeat_unbounded (run RAny) k fuel pos key caps
  = (fix star (key : list ascii) : bool :=
       spec key || match key with _ :: key' => star key' | [] => false end) key.
Proof.
intros Hk. induction fuel as [|fuel IH]; intros pos key caps Hlen Hnul.
- destruct key; [|simpl in Hlen; lia]. simpl. by rewrite Hk.
- destruct key as [|x key]; simpl.
  + by rewrite Hk.
  + rewrite Hk by done. f_equal.
    assert (Hx : Ascii.eqb x zero = false).
    { apply Ascii.eqb_neq. intros ->. apply Hnul. left. }
    rewrite Hx. simpl.
    assert (Hlt : (length key <? S (length key)) = true) by (apply Nat.ltb_lt; lia).
    rewrite Hlt. simpl. apply IH; [simpl in Hlen; lia|].
    intros Hin. apply Hnul. by right.
Qed.

Lemma run_glob (pattern : list ascii) :
∀ (pos : nat) (key : list ascii) (caps : captures),
  zero ∉ key →
  run (foldr RCat REmpty (glob_terms pattern)) pos key caps end_of_key
  = glob_match pattern key.
Proof.
induction pattern as [|c rest IH]; intros pos key caps Hnul; simpl.
- done.
- destruct (Ascii.eqb c "*") eqn:Hc; simpl.
  + apply (repeat_any _ (glob_match rest)); [|done|done].
    intros pos' key' caps' Hnul'. by apply IH.
  + destruct key as [|x key]; [done|]. f_equal. apply IH.
    intros Hin. apply Hnul. by right.
Qed.

Lemma full_match_glob (pattern key : string) :
literal_pattern pattern → nul_free key →
∃ compiled, compile (escape pattern) = Some compiled
            ∧ full_match key compiled = glob pattern key.
Proof.
intros Hlit Hnul. eexists. split; [by apply compile_escape|].
unfold full_match, glob. by apply run_glob.
Qed.

End GlobFacts.

(** For a clear pattern made of [*] and characters other than the
    backslash, the parentheses and the opening brace, the filter does
    what section 4.1 says: among keys without NUL it removes exactly
    those the glob matches in full, and leaves the others as they
    were. *)
Theorem FilterProvides_glob (pattern : string) (to_modify : ProvidesData) :
  literal_pattern pattern →
  (∀ key, is_Some (to_modify !! key) → nul_free key) →
  FilterProvides ∅ [pattern] to_modify
  = (NoError, filter (λ kv : string * string, glob pattern kv.1 = false) to_modify).
Proof.
  intros Hlit Hkeys. unfold FilterProvides. simpl.
  destruct (full_match_glob pattern EmptyString Hlit) as (compiled & Hc & _).
  { unfold nul_free. simpl. apply not_elem_of_nil. }
  rewrite Hc, erase_matching, add_provides_union, (left_id_L ∅ (∪)). f_equal.
  unfold remove_matching. apply map_filter_ext. intros key value Hkey. simpl.
  destruct (full_match_glob pattern key Hlit) as (compiled' & Hc' & Hglob).
  { apply Hkeys. eauto. }
  rewrite Hc in Hc'. injection Hc' as <-.
  by rewrite <- Hglob.
Qed.

(** * The compatibility matcher *)

Lemma MapContainsStringKey_true (m : gmap string string) (key : string) :
  MapContainsStringKey m key = true ↔ is_Some (m !! key).
Proof. unfold MapContainsStringKey. apply bool_decide_eq_true. Qed.

Lemma MapContainsStringKey_false (m : gmap string string) (key : string) :
  MapContainsStringKey m key = false ↔ m !! key = None.
Proof.
  unfold MapContainsStringKey. rewrite bool_decide_eq_false.
  rewrite eq_None_not_Some. done.
Qed.

Lemma VectorContainsString_true (vec : list string) (str : string) :
  VectorContainsString vec str = true ↔ str ∈ vec.
Proof. unfold VectorContainsString. apply bool_decide_eq_true. Qed.

Lemma check_type_info_depends_true (provides : ProvidesData)
    (entries : list (string * string)) :
  check_type_info_depends provides entries = true
  ↔ ∀ key value, (key, value) ∈ entries → provides !! key = Some value.
Proof.
  induction entries as [|[k v] rest IH]; simpl.
  - split; [intros _ ? ? Hin; inversion Hin | done].
  - destruct (MapContainsStringKey provides k) eqn:Hk; simpl.
    + apply MapContainsStringKey_true in Hk as [x Hx].
      unfold map_at. rewrite Hx. simpl.
      destruct (decide (x ≠ v)) as [Hne|Heq].
      * split; [done|]. intros Hall. specialize (Hall k v (list_elem_of_here _ _)).
        congruence.
      * apply dec_stable in Heq. subst x. rewrite IH. split.
        -- intros Hall key value Hin. apply elem_of_cons in Hin as [Heq|Hin].
           ++ by inversion Heq; subst.
           ++ by apply Hall.
        -- intros Hall key value Hin. apply Hall. by apply list_elem_of_further.
    + apply MapContainsStringKey_false in Hk. split; [done|].
      intros Hall. specialize (Hall k v (list_elem_of_here _ _)). congruence.
Qed.

Lemma length_positive {A} (l : list A) : (0 <? length l)%nat = true ↔ l ≠ [].
Proof. destruct l; simpl; split; done. Qed.

(** With populated lists a step either lets the function go on, and its
    condition holds, or answers false, and its condition fails. *)
Lemma name_step_spec (provides : ProvidesData) (names : option (list string))
    (name : string) :
  (∀ l, names = Some l → l ≠ []) →
  provides !! "artifact_name" = Some name →
  let condition := ∀ l, names = Some l →
                     ∃ n, provides !! "artifact_name" = Some n ∧ n ∈ l in
  (name_step provides names = None ∧ condition)
  ∨ (name_step provides names = Some (Value false) ∧ ¬ condition).
Proof.
  intros Hpop Hname condition. subst condition. unfold name_step.
  destruct names as [l|]; [|left; split; [done | intros ? [=]]].
  rewrite (proj2 (length_positive l)) by eauto. simpl.
  unfold map_at. rewrite Hname. simpl.
  destruct (VectorContainsString l name) eqn:Hin; simpl.
  - left. split; [done|]. intros ? [= <-]. exists name.
    split; [done|]. by apply VectorContainsString_true.
  - right. split; [done|]. intros Hc. destruct (Hc l eq_refl) as (n & Hn & Hn').
    assert (n = name) by congruence. subst n.
    apply VectorContainsString_true in Hn'. congruence.
Qed.

Lemma group_step_spec (provides : ProvidesData) (groups : option (list string)) :
  (∀ l, groups = Some l → l ≠ []) →
  let condition := ∀ l, groups = Some l →
                     ∃ g, provides !! "artifact_group" = Some g ∧ g ∈ l in
  (group_step provides groups = None ∧ condition)
  ∨ (group_step provides groups = Some (Value false) ∧ ¬ condition).
Proof.
  intros Hpop condition. subst condition. unfold group_step.
  destruct groups as [l|]; [|left; split; [done | intros ? [=]]].
  rewrite (proj2 (length_positive l)) by eauto. simpl.
  destruct (MapContainsStringKey provides "artifact_group") eqn:Hk; simpl.
  - apply MapContainsStringKey_true in Hk as [g Hg].
    unfold map_at. rewrite Hg. simpl.
    destruct (VectorContainsString l g) eqn:Hin; simpl.
    + left. split; [done|]. intros ? [= <-]. exists g.
      split; [done|]. by apply VectorContainsString_true.
    + right. split; [done|]. intros Hc. destruct (Hc l eq_refl) as (g' & Hg' & Hin').
      assert (g' = g) by congruence. subst g'.
      apply VectorContainsString_true in Hin'. congruence.
  - apply MapContainsStringKey_false in Hk.
    right. split; [done|]. intros Hc. destruct (Hc l eq_refl) as (g' & Hg' & _).
    congruence.
Qed.

Lemma type_info_step_spec (provides : ProvidesData) (type_info : artifact.TypeInfo) :
  ∃ answer : bool,
    type_info_step provides type_info = Value answer
    ∧ (answer = true
       ↔ ∀ ti_depends, artifact.artifact_depends type_info = Some ti_depends →
           ∀ key value, ti_depends !! key = Some value → provides !! key = Some value).
Proof.
  unfold type_info_step.
  destruct (artifact.artifact_depends type_info) as [deps|].
  - eexists. split; [done|]. rewrite check_type_info_depends_true. split.
    + intros Hall ? [= <-] key value Hkv. apply Hall. by apply elem_of_map_to_list.
    + intros Hall key value Hin. apply (Hall deps eq_refl).
      by apply elem_of_map_to_list.
  - exists true. split; [done|]. split; [intros _ ? [=] | done].
Qed.

(** C2, as the code has it.  The matcher reports the value error exactly
    when [provides] has no [artifact_name] key; an [artifact_name] that is
    present but empty is not an error.  For header depends whose lists are
    populated and provides with the key, the answer is a plain boolean,
    true exactly when the device type is listed, the provides
    [artifact_name] is among the listed names when names are listed, an
    [artifact_group] key is present with a listed value when groups are
    listed, and every type-info depends key is in provides with the same
    value. *)
Theorem ArtifactMatchesContext_spec (provides : ProvidesData) (device_type : string)
    (hdr_info : artifact.HeaderInfo) (type_info : artifact.TypeInfo) :
  (ArtifactMatchesContext provides device_type hdr_info type_info = Unexpected ValueError
   ↔ provides !! "artifact_name" = None)
  ∧ (populated (artifact.depends hdr_info) →
     is_Some (provides !! "artifact_name") →
     ∃ answer : bool,
       ArtifactMatchesContext provides device_type hdr_info type_info = Value answer
       ∧ (answer = true
          ↔ compatible provides device_type (artifact.depends hdr_info) type_info)).
Proof.
  unfold ArtifactMatchesContext. split.
  - destruct (MapContainsStringKey provides "artifact_name") eqn:Hname; simpl.
    + apply MapContainsStringKey_true in Hname as [x Hx]. rewrite Hx.
      split; [|done]. unfold name_step, group_step, type_info_step.
      repeat (first [ discriminate | case_match; simplify_eq ]).
    + apply MapContainsStringKey_false in Hname. done.
  - intros (Hdev & Hnames & Hgroups) Hname.
    rewrite (proj2 (MapContainsStringKey_true _ _) Hname). simpl.
    destruct Hname as [name Hname].
    rewrite (proj2 (length_positive _) Hdev). simpl.
    unfold compatible.
    destruct (VectorContainsString (artifact.device_type (artifact.depends hdr_info))
                device_type) eqn:Hdt; simpl.
    2:{ exists false. split; [done|]. split; [done|]. intros [Hin _].
        apply VectorContainsString_true in Hin. congruence. }
    apply VectorContainsString_true in Hdt.
    destruct (name_step_spec provides _ name Hnames Hname) as [[-> Hc1]|[-> Hc1]].
    2:{ exists false. split; [done|]. split; [done|]. intros (_ & ? & _). done. }
    destruct (group_step_spec provides _ Hgroups) as [[-> Hc2]|[-> Hc2]].
    2:{ exists false. split; [done|]. split; [done|]. intros (_ & _ & ? & _). done. }
    destruct (type_info_step_spec provides type_info) as (answer & -> & Hanswer).
    exists answer. split; [done|]. rewrite Hanswer. tauto.
Qed.

(** * The commit *)

Lemma Load_error (text : string) (err : Error) :
  json.Load text = Unexpected err → err = JsonError.
Proof. unfold json.Load. intros Hload. repeat case_match; congruence. Qed.

Lemma provides_of_records_error (artifact_name artifact_group blob : string)
    (err : Error) :
  provides_of_records artifact_name artifact_group blob = Unexpected err →
  err = JsonError.
Proof.
  unfold provides_of_records. intros Hload.
  destruct (decide (blob = EmptyString)); [done|].
  destruct (json.Load blob) as [j|e] eqn:Hj.
  - destruct j; simpl in Hload; try congruence.
    destruct (all_strings children); congruence.
  - apply Load_error in Hj. congruence.
Qed.

Lemma ReadString_error (key : string) (txn txn' : kv_db.Transaction)
    (err : Error) (value : string) :
  kv_db.ReadString key txn = (err, value, txn') →
  err = NoError ∨ err = DatabaseError.
Proof.
  unfold kv_db.ReadString, kv_db.Read. intros Hread.
  destruct (kv_db.next_fault txn) as [[] t]; simpl in Hread.
  - right. congruence.
  - left. destruct (kv_db.txn_data t !! key); congruence.
Qed.

Lemma LoadProvides_error (txn txn' : kv_db.Transaction) (err : Error) :
  LoadProvides txn = (Unexpected err, txn') → err ≠ NoError.
Proof.
  unfold LoadProvides. intros Hload.
  destruct (kv_db.ReadString artifact_name_key txn) as [[e1 name] t1] eqn:H1.
  apply ReadString_error in H1 as [->| ->]; [|congruence].
  destruct (kv_db.ReadString artifact_group_key t1) as [[e2 group] t2] eqn:H2.
  apply ReadString_error in H2 as [->| ->]; [|congruence].
  destruct (kv_db.ReadString artifact_provides_key t2) as [[e3 blob] t3] eqn:H3.
  apply ReadString_error in H3 as [->| ->]; [|congruence].
  injection Hload as Hrecords _. apply provides_of_records_error in Hrecords.
  congruence.
Qed.

Section CommitResults.
Context `{RegexLibrary}.

Lemma write_records_fails (modified_provides : ProvidesData)
    (txn_func : kv_db.Transaction → Error * kv_db.Transaction)
    (txn : kv_db.Transaction) :
  (∀ t, (txn_func t).1 ≠ NoError) →
  (write_records modified_provides txn_func txn).1 ≠ NoError.
Proof.
  intros Hfails. unfold write_records.
  repeat (first [ apply Hfails | done | case_match; simplify_eq; simpl ]).
Qed.

Lemma commit_in_transaction_fails (artifact_name artifact_group : string)
    (new_provides : option ProvidesData) (clears_provides : option ClearsProvidesData)
    (txn_func : kv_db.Transaction → Error * kv_db.Transaction)
    (txn : kv_db.Transaction) :
  (∀ t, (txn_func t).1 ≠ NoError) →
  (commit_in_transaction artifact_name artifact_group new_provides clears_provides
     txn_func txn).1 ≠ NoError.
Proof.
  intros Hfails. unfold commit_in_transaction.
  destruct (LoadProvides txn) as [[existing|err] txn'] eqn:Hload.
  - destruct (merge_provides existing artifact_name artifact_group
                new_provides clears_provides) as [err modified] eqn:Hmerge.
    destruct err; simpl; try done. by apply write_records_fails.
  - simpl. by eapply LoadProvides_error.
Qed.

(** C3.  A commit that ends with an error leaves the store as it was
    before the call, so the three provides records are the ones from
    before; and a continuation that answers with an error makes the
    commit end with an error.  The rollback itself is the store's:
    [WriteTransaction] keeps the transaction's writes only when the
    function it runs succeeds. *)
Theorem CommitArtifactData_atomic (mender_store : kv_db.KeyValueDatabase)
    (faults : list bool) (artifact_name artifact_group : string)
    (new_provides : option ProvidesData) (clears_provides : option ClearsProvidesData)
    (txn_func : kv_db.Transaction → Error * kv_db.Transaction) :
  let result := CommitArtifactData mender_store faults artifact_name artifact_group
                  new_provides clears_provides txn_func in
  (result.1 ≠ NoError → result.2 = mender_store)
  ∧ ((∀ txn, (txn_func txn).1 ≠ NoError) →
     result.1 ≠ NoError ∧ result.2 = mender_store).
Proof.
  simpl. unfold CommitArtifactData, kv_db.WriteTransaction.
  pose proof (commit_in_transaction_fails artifact_name artifact_group new_provides
                clears_provides txn_func
                {| kv_db.txn_data := mender_store; kv_db.txn_faults := faults |})
    as Hfails.
  destruct (commit_in_transaction _ _ _ _ _ _) as [err txn]. simpl in Hfails.
  split.
  - destruct err; simpl; try done.
    destruct (kv_db.next_fault txn) as [[] txn']; simpl; done.
  - intros Hfunc. specialize (Hfails Hfunc). destruct err; simpl; done.
Qed.

End CommitResults.

(** * The device type reader *)


Lemma extract_line_whole (line : string) :
  no_newline line →
  io.extract_line (list_ascii_of_string line) = (line, [], true).
Proof.
  unfold no_newline. induction line as [|c line IH]; simpl; intros Hnl; [done|].
  destruct (Ascii.eqb_spec c io.newline) as [->|Hc].
  - exfalso. apply Hnl. left.
  - rewrite IH; [done|]. intros Hin. apply Hnl. by right.
Qed.

Lemma extract_line_first (line tail : string) :
  no_newline line →
  io.extract_line (list_ascii_of_string (line +:+ nl +:+ tail))
  = (line, list_ascii_of_string tail, false).
Proof.
  unfold no_newline, nl. induction line as [|c line IH]; simpl in *; intros Hnl.
  - reflexivity.
  - destruct (Ascii.eqb_spec c io.newline) as [->|Hc].
    + exfalso. apply Hnl. left.
    + rewrite IH; [done|]. intros Hin. apply Hnl. by right.
Qed.

Lemma substring_all (s : string) (n : nat) :
  (String.length s ≤ n)%nat → substring 0 n s = s.
Proof.
  revert n. induction s as [|c s IH]; intros n Hn; simpl in *.
  - by destruct n.
  - destruct n as [|n]; [lia|]. simpl. rewrite IH; [done | lia].
Qed.

Lemma no_newline_prefixed (value : string) :
  no_newline value → no_newline ("device_type=" +:+ value).
Proof.
  unfold no_newline. simpl. intros Hnl Hin.
  repeat (apply elem_of_cons in Hin as [Hin|Hin]; [discriminate Hin|]). done.
Qed.

(** A file of one line and no newline. *)
Lemma read_device_type_line (line : string) :
  no_newline line →
  read_device_type (opened line)
  = if decide (substring 0 eq_pos line ≠ "device_type=") then Unexpected ParseError
    else Value (substring eq_pos (String.length line) line).
Proof.
  intros Hnl. unfold read_device_type, io.getline, opened. simpl.
  rewrite extract_line_whole by done. simpl.
  destruct (decide (substring 0 eq_pos line ≠ "device_type=")); done.
Qed.

(** A file whose first line ends with a newline. *)
Lemma read_device_type_lines (line tail : string) :
  no_newline line →
  read_device_type (opened (line +:+ nl +:+ tail))
  = if decide (substring 0 eq_pos line ≠ "device_type=") then Unexpected ParseError
    else if decide (tail = EmptyString)
         then Value (substring eq_pos (String.length line) line)
         else Unexpected ValueError.
Proof.
  intros Hnl. unfold read_device_type, io.getline, opened.
  cbn [io.good io.eofbit io.failbit io.badbit io.unread io.read_errno negb andb].
  rewrite extract_line_first by done. simpl.
  destruct (decide (substring 0 eq_pos line ≠ "device_type=")); [done|].
  replace (match list_ascii_of_string (line +:+ String io.newline tail) with
           | [] => true | _ :: _ => false end) with false by (by destruct line).
  unfold io.good. simpl.
  destruct tail as [|c tail]; simpl; [done|].
  destruct (Ascii.eqb c io.newline); simpl; [done|].
  destruct (io.extract_line (list_ascii_of_string tail)) as [[l r] e]. simpl.
  done.
Qed.

Lemma GetDeviceType_readable (config : MenderConfig) (content : string) :
  GetDeviceType config (readable content) = read_device_type (opened content).
Proof. reflexivity. Qed.

Lemma prefix_taken (value : string) :
  substring 0 eq_pos ("device_type=" +:+ value) = "device_type=".
Proof. simpl. by destruct value. Qed.

Lemma value_taken (value : string) :
  substring eq_pos (String.length ("device_type=" +:+ value)) ("device_type=" +:+ value)
  = value.
Proof.
  simpl.
  apply substring_all. lia.
Qed.

(** C8.  For a file that reads well, whatever the configuration names:
    a first line [device_type=value] gives [value] as it stands, white
    space at its end included, when the file ends with that line or with
    the one newline after it; anything at all after that newline, a
    second newline too, is the value error; a first line without the
    prefix is the parse error, whatever follows.  So
    ["device_type=foo\n"] gives ["foo"] and ["device_type=foo\nbar\n"] is
    an error. *)
Theorem GetDeviceType_contract (config : MenderConfig) (value : string) :
  no_newline value →
  GetDeviceType config (readable ("device_type=" +:+ value)) = Value value
  ∧ GetDeviceType config (readable ("device_type=" +:+ value +:+ nl)) = Value value
  ∧ (∀ tail, tail ≠ EmptyString →
       GetDeviceType config (readable ("device_type=" +:+ value +:+ nl +:+ tail))
       = Unexpected ValueError)
  ∧ (∀ line tail, no_newline line → substring 0 eq_pos line ≠ "device_type=" →
       GetDeviceType config (readable line) = Unexpected ParseError
       ∧ GetDeviceType config (readable (line +:+ nl +:+ tail)) = Unexpected ParseError)
  ∧ GetDeviceType config (readable ("device_type=foo" +:+ nl)) = Value "foo"
  ∧ GetDeviceType config (readable ("device_type=foo" +:+ nl +:+ "bar" +:+ nl))
    = Unexpected ValueError.
Proof.
  intros Hnl. pose proof (no_newline_prefixed value Hnl) as Hline.
  rewrite !GetDeviceType_readable.
  split; [|split; [|split; [|split; [|split]]]].
  - rewrite read_device_type_line by done.
    rewrite decide_False by (rewrite prefix_taken; auto).
    by rewrite value_taken.
  - rewrite <- (append_empty_r nl).
    rewrite <- (append_assoc "device_type=" value (nl +:+ EmptyString)).
    rewrite read_device_type_lines by done.
    rewrite decide_False by (rewrite prefix_taken; auto).
    by rewrite value_taken.
  - intros tail Htail.
    rewrite GetDeviceType_readable.
    rewrite <- (append_assoc "device_type=" value (nl +:+ tail)).
    rewrite read_device_type_lines by done.
    rewrite decide_False by (rewrite prefix_taken; auto).
    by rewrite decide_False.
  - intros line tail Hl Hprefix. rewrite !GetDeviceType_readable.
    rewrite read_device_type_line, read_device_type_lines by done.
    by rewrite !decide_True.
  - vm_compute. reflexivity.
  - vm_compute. reflexivity.
Qed.

(** C10.  A first line that is exactly [device_type=], with no value
    after the prefix, is taken: the device type is the empty string,
    with or without the newline at the end. *)
Theorem GetDeviceType_empty_value (config : MenderConfig) :
  GetDeviceType config (readable "device_type=") = Value EmptyString
  ∧ GetDeviceType config (readable ("device_type=" +:+ nl)) = Value EmptyString.
Proof. rewrite !GetDeviceType_readable. split; vm_compute; reflexivity. Qed.

(** * The provides blob read back *)

Section RoundTrip.
Local Open Scope list_scope.

Lemma chr_code (c : ascii) : json.chr (json.code c) = c.
Proof. apply ascii_N_embedding. Qed.

Lemma code_is (c : ascii) (n : N) : json.code c = n → c = json.chr n.
Proof. intros <-. by rewrite chr_code. Qed.

(** A character that stands for itself between the quotes. *)
Lemma scan_string_literal (c : ascii) (tail : list ascii) :
  (json.code c =? 34)%N = false → (json.code c =? 92)%N = false →
  (json.code c <? 32)%N = false → (json.code c <? 128)%N = true →
  json.scan_string (c :: tail) = json.push [c] (json.scan_string tail).
Proof.
  intros H34 H92 H32 H128. cbn [json.scan_string]. cbv zeta.
  by rewrite H34, H92, H32, H128.
Qed.

Lemma plain_char_tests (c : ascii) :
  plain_char c = true →
  (json.code c =? 34)%N = false ∧ (json.code c =? 92)%N = false
  ∧ (json.code c <? 32)%N = false ∧ (json.code c <? 128)%N = true.
Proof.
  unfold plain_char. cbv zeta. intros Hc.
  apply andb_prop in Hc as [Hc H92]. apply andb_prop in Hc as [Hc H34].
  apply andb_prop in Hc as [H32 H128].
  apply negb_true_iff in H34, H92. apply N.leb_le in H32.
  repeat split; try done. apply N.ltb_ge. done.
Qed.

Lemma scan_string_plain (key : list ascii) (rest : list ascii) :
  Forall (λ c, plain_char c = true) key →
  json.scan_string (key ++ json.quote :: rest) = Some (key, rest).
Proof.
  induction key as [|c key IH]; intros Hplain.
  - reflexivity.
  - apply Forall_cons in Hplain as [Hc Hkey].
    apply plain_char_tests in Hc as (H34 & H92 & H32 & H128).
    rewrite <- app_comm_cons, scan_string_literal, IH by done. reflexivity.
Qed.

Ltac scan_concrete :=
  lazy -[json.scan_string json.push]; cbn [json.scan_string];
  lazy -[json.scan_string json.push]; reflexivity.

Lemma scan_escaped_control (c : ascii) (tail : list ascii) :
  (json.code c <? 32)%N = true →
  json.scan_string
    (list_ascii_of_string (json.EscapeString (String c EmptyString)) ++ tail)
  = json.push [c] (json.scan_string tail).
Proof.
  destruct c as [b0 b1 b2 b3 b4 b5 b6 b7].
  destruct b5, b6, b7; intros Hc; try (vm_compute in Hc; discriminate Hc).
  - destruct b0, b1, b2, b3, b4; vm_compute in Hc; discriminate Hc.
  - destruct b0, b1, b2, b3, b4; vm_compute in Hc; discriminate Hc.
  - destruct b0, b1, b2, b3, b4; vm_compute in Hc; discriminate Hc.
  - destruct b0, b1, b2, b3, b4; vm_compute in Hc; discriminate Hc.
  - destruct b0, b1, b2, b3, b4; vm_compute in Hc; discriminate Hc.
  - destruct b0, b1, b2, b3, b4; vm_compute in Hc; discriminate Hc.
  - destruct b0, b1, b2, b3, b4; vm_compute in Hc; discriminate Hc.
  - clear Hc. destruct b0, b1, b2, b3, b4; scan_concrete.
Qed.

Lemma EscapeString_cons (c : ascii) (value : string) :
  json.EscapeString (String c value)
  = json.EscapeString (String c EmptyString) +:+ json.EscapeString value.
Proof. cbn [json.EscapeString]. cbv zeta. repeat case_match; reflexivity. Qed.

Lemma list_ascii_of_append (a b : string) :
  list_ascii_of_string (a +:+ b) = list_ascii_of_string a ++ list_ascii_of_string b.
Proof. induction a as [|x a IH]; simpl; [done | by rewrite IH]. Qed.

Lemma scan_escaped_char (c : ascii) (tail : list ascii) :
  ascii_char c = true →
  json.scan_string
    (list_ascii_of_string (json.EscapeString (String c EmptyString)) ++ tail)
  = json.push [c] (json.scan_string tail).
Proof.
  unfold ascii_char. intros H128.
  destruct (json.code c <? 32)%N eqn:H32; [by apply scan_escaped_control|].
  destruct (json.code c =? 34)%N eqn:H34.
  { apply N.eqb_eq, code_is in H34. subst c. scan_concrete. }
  destruct (json.code c =? 92)%N eqn:H92.
  { apply N.eqb_eq, code_is in H92. subst c. scan_concrete. }
  assert (Hself : json.EscapeString (String c EmptyString) = String c EmptyString).
  { cbn [json.EscapeString]. cbv zeta. rewrite H34, H92, H32.
    repeat case_match; try reflexivity;
      match goal with
      | H : (json.code c =? ?n)%N = true |- _ =>
          apply N.eqb_eq in H; rewrite H in H32; discriminate H32
      end. }
  rewrite Hself. simpl. by apply scan_string_literal.
Qed.

Lemma scan_string_escaped (value : string) (rest : list ascii) :
  Forall (λ c, ascii_char c = true) (list_ascii_of_string value) →
  json.scan_string (list_ascii_of_string (json.EscapeString value) ++ json.quote :: rest)
  = Some (list_ascii_of_string value, rest).
Proof.
  induction value as [|c value IH]; intros Hascii.
  - reflexivity.
  - simpl in Hascii. apply Forall_cons in Hascii as [Hc Hvalue].
    rewrite EscapeString_cons, list_ascii_of_append, <- app_assoc.
    rewrite scan_escaped_char, IH by done. reflexivity.
Qed.

Lemma set_last_append (prefix s : string) (c : ascii) :
  s ≠ EmptyString → set_last (prefix +:+ s) c = prefix +:+ set_last s c.
Proof.
  intros Hs. induction prefix as [|x prefix IH]; simpl; [done|].
  rewrite IH. destruct (prefix +:+ s) eqn:Happ; [|done].
  destruct prefix; simpl in Happ; [congruence | discriminate].
Qed.

(** The loop of lines 330-335: the reserved entries are passed over. *)
Lemma pairs_loop (l : list (string * string)) (acc : string) :
  foldl (λ artifact_provides_str it,
           if decide (it.1 ≠ "artifact_name" ∧ it.1 ≠ "artifact_group")
           then artifact_provides_str +:+ quoted it.1 +:+ ":"
                  +:+ quoted (json.EscapeString it.2) +:+ ","
           else artifact_provides_str) acc l
  = acc +:+ pairs_text (filter (λ it, not_reserved it.1) l).
Proof.
  revert acc. induction l as [|it l IH]; intros acc; cbn [foldl].
  - by rewrite append_empty_r.
  - rewrite IH, filter_cons.
    repeat case_decide; try (exfalso; unfold not_reserved in *; tauto).
    + cbn [pairs_text foldr]. unfold member_text. by rewrite !append_assoc.
    + done.
Qed.

Lemma set_last_pairs (prefix : string) (l : list (string * string)) :
  l ≠ [] → set_last (prefix +:+ pairs_text l) "}" = prefix +:+ members_text l.
Proof.
  revert prefix. induction l as [|it l IH]; intros prefix Hl; [done|].
  cbn [pairs_text foldr]. fold (pairs_text l).
  destruct l as [|it' l].
  - cbn [pairs_text foldr members_text].
    rewrite append_empty_r, <- append_assoc, set_last_append by done.
    by rewrite append_assoc.
  - rewrite <- !append_assoc, IH by done.
    cbn [members_text]. by rewrite !append_assoc.
Qed.

Lemma code_quote : (json.code json.quote =? 34)%N = true.
Proof. reflexivity. Qed.

Lemma is_space_colon : json.is_space ":" = false.
Proof. reflexivity. Qed.

Lemma is_space_quote : json.is_space json.quote = false.
Proof. reflexivity. Qed.

Lemma list_of_quoted (s : string) :
  list_ascii_of_string (quoted s) = json.quote :: list_ascii_of_string s ++ [json.quote].
Proof. unfold quoted. simpl. by rewrite list_ascii_of_append. Qed.

Lemma list_of_member (key value : string) (tail : list ascii) :
  list_ascii_of_string (member_text (key, value)) ++ tail
  = json.quote :: list_ascii_of_string key ++ json.quote :: ":"%char :: json.quote
      :: list_ascii_of_string (json.EscapeString value) ++ json.quote :: tail.
Proof.
  unfold member_text. cbn [fst snd].
  rewrite !list_ascii_of_append, !list_of_quoted. simpl.
  rewrite <- !app_assoc. simpl. rewrite <- !app_assoc. reflexivity.
Qed.

(** One member, and what decides what comes next. *)
Lemma scan_member (key value : string) (fuel : nat) (tail : list ascii) :
  plain_key key → ascii_value value →
  json.scan_members (S fuel) (list_ascii_of_string (member_text (key, value)) ++ tail)
  = match json.skip_space tail with
    | ","%char :: more =>
        match json.scan_members fuel (json.skip_space more) with
        | Some (members, rest) => Some ((key, json.JsonString value) :: members, rest)
        | None => None
        end
    | "}"%char :: rest => Some ([(key, json.JsonString value)], rest)
    | _ => None
    end.
Proof.
  intros Hkey Hvalue. rewrite list_of_member.
  cbn [json.scan_members]. rewrite code_quote.
  rewrite scan_string_plain by done.
  cbn [json.skip_space]. rewrite is_space_colon.
  cbn [json.skip_space]. rewrite is_space_quote.
  cbn [json.scan_value]. rewrite code_quote.
  rewrite scan_string_escaped by done.
  rewrite !string_of_list_ascii_of_string.
  destruct (json.skip_space tail) as [|c more]; [done|].
  reflexivity.
Qed.

Lemma members_text_cons (it it' : string * string) (l : list (string * string)) :
  members_text (it :: it' :: l) = member_text it +:+ "," +:+ members_text (it' :: l).
Proof. reflexivity. Qed.

Lemma members_text_starts (it : string * string) (l : list (string * string))
    (rest : list ascii) :
  ∃ more, list_ascii_of_string (members_text (it :: l)) ++ rest = json.quote :: more.
Proof.
  destruct it as [key value].
  destruct l; cbn [members_text]; rewrite list_ascii_of_append, <- app_assoc,
    list_of_member; eauto.
Qed.

Lemma scan_members_text (l : list (string * string)) :
  Forall safe_member l → l ≠ [] →
  ∀ (fuel : nat) (rest : list ascii),
    (List.length l ≤ fuel)%nat →
    json.scan_members fuel (list_ascii_of_string (members_text l) ++ rest)
    = Some (map (λ it, (it.1, json.JsonString it.2)) l, rest).
Proof.
  induction l as [|[key value] l IH]; intros Hsafe Hne fuel rest Hfuel; [done|].
  apply Forall_cons in Hsafe as [[Hkey Hvalue] Hsafe]. cbn [fst snd] in *.
  destruct fuel as [|fuel]; [simpl in Hfuel; lia|].
  destruct l as [|it l].
  - cbn [members_text]. rewrite list_ascii_of_append, <- app_assoc.
    rewrite scan_member by done. reflexivity.
  - rewrite members_text_cons, !list_ascii_of_append, <- !app_assoc.
    rewrite scan_member by done.
    change (list_ascii_of_string "," ++ ?x) with (","%char :: x).
    cbn [json.skip_space]. change (json.is_space ",") with false. cbv iota.
    destruct (members_text_starts it l rest) as [more Hmore].
    rewrite Hmore. cbn [json.skip_space]. rewrite is_space_quote. rewrite <- Hmore.
    rewrite IH; [done | done | done | simpl in *; lia].
Qed.

Lemma add_children_strings (l : list (string * string)) (ret : ProvidesData) :
  add_children (map (λ it, (it.1, json.JsonString it.2)) l) ret
  = foldl (λ m it, <[it.1 := it.2]> m) ret l.
Proof. revert ret. induction l as [|[k v] l IH]; intros ret; simpl; [done | apply IH]. Qed.

Lemma all_strings_strings (l : list (string * string)) :
  all_strings (map (λ it, (it.1, json.JsonString it.2)) l) = true.
Proof. unfold all_strings. induction l; simpl; done. Qed.

Lemma foldl_insert (l : list (string * string)) (ret : ProvidesData) :
  NoDup l.*1 →
  foldl (λ m it, <[it.1 := it.2]> m) ret l = list_to_map l ∪ ret.
Proof.
  revert ret. induction l as [|[k v] l IH]; intros ret Hnodup; simpl.
  - by rewrite (left_id_L ∅ (∪)).
  - apply NoDup_cons in Hnodup as [Hk Hnodup]. rewrite IH by done.
    rewrite <- insert_union_r by (by apply not_elem_of_list_to_map_1).
    by rewrite insert_union_l.
Qed.

Lemma members_text_length (l : list (string * string)) :
  (List.length l ≤ List.length (list_ascii_of_string (members_text l)))%nat.
Proof.
  induction l as [|[key value] l IH]; [simpl; lia|].
  destruct l as [|it l].
  - cbn [members_text]. rewrite <- (app_nil_r (list_ascii_of_string _)).
    rewrite list_ascii_of_append, <- app_assoc, list_of_member. simpl. lia.
  - rewrite members_text_cons, list_ascii_of_append, list_of_member.
    rewrite list_ascii_of_append. simpl in *. rewrite !length_app. simpl.
    rewrite !length_app. simpl. lia.
Qed.

Lemma Load_members (l : list (string * string)) :
  Forall safe_member l → l ≠ [] →
  json.Load ("{" +:+ members_text l)
  = Value (json.JsonObject (map (λ it, (it.1, json.JsonString it.2)) l)).
Proof.
  intros Hsafe Hne. unfold json.Load.
  change (list_ascii_of_string ("{" +:+ members_text l))
    with ("{"%char :: list_ascii_of_string (members_text l)).
  cbn [json.skip_space]. change (json.is_space "{") with false. cbv iota.
  destruct l as [|it l]; [done|].
  destruct (members_text_starts it l []) as [more Hmore].
  rewrite app_nil_r in Hmore.
  unfold json.scan_document. rewrite Hmore.
  cbn [json.skip_space]. rewrite is_space_quote.
  change json.quote with "034"%char at 1. cbv iota.
  change "034"%char with json.quote. rewrite <- Hmore.
  rewrite <- (app_nil_r (list_ascii_of_string (members_text (it :: l)))) at 2.
  rewrite scan_members_text by (done || apply members_text_length).
  reflexivity.
Qed.

Lemma encode_provides_text (M : ProvidesData) :
  encode_provides M
  = match blob_entries M with
    | [] => EmptyString
    | l => "{" +:+ members_text l
    end.
Proof.
  unfold encode_provides, provides_pairs, blob_entries.
  rewrite pairs_loop.
  destruct (filter _ (map_to_list M)) as [|it l] eqn:Hl.
  - by rewrite decide_False by (intros Hne; by apply Hne).
  - rewrite set_last_pairs by done.
    rewrite decide_True; [done|].
    cbn [pairs_text foldr]. unfold member_text, quoted. simpl. discriminate.
Qed.

Lemma blob_entries_safe (M : ProvidesData) :
  blob_safe M → Forall safe_member (blob_entries M).
Proof.
  intros Hsafe. apply Forall_forall. intros [k v] Hin.
  apply list_elem_of_filter in Hin as [Hk Hin]. apply elem_of_map_to_list in Hin.
  destruct (Hsafe k v Hin Hk). by split.
Qed.

Lemma blob_entries_map (M : ProvidesData) : list_to_map (blob_entries M) = free_part M.
Proof. unfold blob_entries, free_part. by rewrite <- map_filter_alt. Qed.

Lemma blob_entries_NoDup (M : ProvidesData) : NoDup (blob_entries M).*1.
Proof.
  unfold blob_entries. pose proof (NoDup_fst_map_to_list M) as Hnodup.
  induction (map_to_list M) as [|it l IH]; [constructor|].
  apply NoDup_cons in Hnodup as [Hit Hnodup]. rewrite filter_cons.
  case_decide; [|by apply IH].
  simpl. apply NoDup_cons. split; [|by apply IH].
  intros Hin. apply Hit. apply list_elem_of_fmap in Hin as (it' & -> & Hin').
  apply list_elem_of_filter in Hin' as [_ Hin']. apply list_elem_of_fmap. eauto.
Qed.

Lemma reserved_records_ret (artifact_name artifact_group blob : string) :
  provides_of_records artifact_name artifact_group blob
  = if decide (blob = EmptyString)
    then Value (reserved_records artifact_name artifact_group)
    else match json.Load blob with
         | Unexpected err => Unexpected err
         | Value j =>
             match json.GetChildren j with
             | Unexpected err => Unexpected err
             | Value children =>
                 if all_strings children
                 then Value (add_children children
                               (reserved_records artifact_name artifact_group))
                 else Unexpected JsonError
             end
         end.
Proof. reflexivity. Qed.

(** What [LoadProvides] makes of the two reserved records and the blob
    written for a mapping: the non-reserved part of the mapping, and the
    reserved keys of the records. *)
Theorem decode_encoded (M : ProvidesData) (artifact_name artifact_group : string) :
  blob_safe M →
  provides_of_records artifact_name artifact_group (encode_provides M)
  = Value (free_part M ∪ reserved_records artifact_name artifact_group).
Proof.
  intros Hsafe. rewrite reserved_records_ret, encode_provides_text.
  pose proof (blob_entries_safe M Hsafe) as Hentries.
  pose proof (blob_entries_NoDup M) as Hnodup.
  rewrite <- blob_entries_map.
  destruct (blob_entries M) as [|it l] eqn:Hl.
  - rewrite decide_True by done. simpl. by rewrite (left_id_L ∅ (∪)).
  - rewrite decide_False by discriminate.
    rewrite Load_members by done.
    cbn [json.GetChildren]. rewrite all_strings_strings, add_children_strings.
    by rewrite foldl_insert.
Qed.

(** X9.  The blob written for a mapping reads back as that mapping, when
    no key is reserved, keys are made of printable ASCII characters other
    than the quote and the backslash, and values are ASCII. *)
Theorem provides_round_trip (M : ProvidesData) :
  (∀ key value, M !! key = Some value →
     not_reserved key ∧ plain_key key ∧ ascii_value value) →
  provides_of_records EmptyString EmptyString (encode_provides M) = Value M.
Proof.
  intros Hsafe. rewrite decode_encoded.
  - f_equal. unfold free_part, reserved_records. simpl.
    rewrite (right_id_L ∅ (∪)). apply map_filter_id.
    intros key value Hkv. by apply Hsafe in Hkv as (? & _).
  - intros key value Hkv _. by apply Hsafe in Hkv as (_ & ? & ?).
Qed.

End RoundTrip.

(** * Committing twice *)

Section CommitNoFaults.
Context `{RegexLibrary}.

Lemma ReadString_no_faults (store : kv_db.KeyValueDatabase) (key : string) :
  kv_db.ReadString key {| kv_db.txn_data := store; kv_db.txn_faults := [] |}
  = (NoError, record store key, {| kv_db.txn_data := store; kv_db.txn_faults := [] |}).
Proof.
  unfold kv_db.ReadString, kv_db.Read, kv_db.next_fault, record. simpl.
  destruct (store !! key); reflexivity.
Qed.

Lemma LoadProvides_no_faults (store : kv_db.KeyValueDatabase) :
  LoadProvides {| kv_db.txn_data := store; kv_db.txn_faults := [] |}
  = (provides_of_records (record store artifact_name_key)
       (record store artifact_group_key) (record store artifact_provides_key),
     {| kv_db.txn_data := store; kv_db.txn_faults := [] |}).
Proof. unfold LoadProvides. by rewrite !ReadString_no_faults. Qed.

Lemma write_records_no_faults (modified_provides : ProvidesData)
    (store : kv_db.KeyValueDatabase) :
  write_records modified_provides no_more_writes
    {| kv_db.txn_data := store; kv_db.txn_faults := [] |}
  = if decide (at_or_empty modified_provides "artifact_name" ≠ EmptyString)
    then (NoError, {| kv_db.txn_data := written modified_provides store;
                      kv_db.txn_faults := [] |})
    else (AssertionFailure, {| kv_db.txn_data := store; kv_db.txn_faults := [] |}).
Proof.
  unfold write_records, written, kv_db.Write, kv_db.Remove, kv_db.next_fault,
    no_more_writes. simpl.
  repeat case_decide; reflexivity.
Qed.

(** A commit on a store that does not fail, with a continuation that
    adds nothing. *)
Lemma CommitArtifactData_no_faults (store : kv_db.KeyValueDatabase)
    (artifact_name artifact_group : string)
    (new_provides : option ProvidesData) (clears_provides : option ClearsProvidesData) :
  CommitArtifactData store [] artifact_name artifact_group new_provides clears_provides
    no_more_writes
  = match provides_of_records (record store artifact_name_key)
            (record store artifact_group_key) (record store artifact_provides_key) with
    | Unexpected err => (err, store)
    | Value existing =>
        match merge_provides existing artifact_name artifact_group
                new_provides clears_provides with
        | (NoError, modified_provides) =>
            if decide (at_or_empty modified_provides "artifact_name" ≠ EmptyString)
            then (NoError, written modified_provides store)
            else (AssertionFailure, store)
        | (err, _) => (err, store)
        end
    end.
Proof.
  unfold CommitArtifactData, kv_db.WriteTransaction, commit_in_transaction.
  rewrite LoadProvides_no_faults.
  destruct (provides_of_records _ _ _) as [existing|err] eqn:Hload.
  - destruct (merge_provides existing artifact_name artifact_group new_provides
                clears_provides) as [err modified_provides].
    destruct err; try reflexivity.
    rewrite write_records_no_faults. case_decide; reflexivity.
  - apply provides_of_records_error in Hload. subst err. reflexivity.
Qed.

End CommitNoFaults.

Section Kept.
Context `{RegexLibrary}.

Lemma filter_patterns_kept (clears : ClearsProvidesData) (m : ProvidesData) :
  filter_patterns clears m
  = (λ compiled, filter (λ kv : string * string, kept compiled kv.1 = true) m)
      <$> compile_all clears.
Proof.
  revert m. induction clears as [|pattern rest IH]; intros m; simpl.
  - f_equal. symmetry. apply map_filter_id. done.
  - destruct (regex_assign_basic (escape pattern)) as [compiled|]; [|done].
    rewrite IH. destruct (compile_all rest) as [others|]; [|done]. simpl. f_equal.
    unfold remove_matching. rewrite map_filter_filter.
    apply map_filter_ext. intros key value _. simpl.
    destruct (regex_match key compiled); simpl; naive_solver.
Qed.

Lemma kept_lookup (compiled : list regex) (m : ProvidesData) (key : string) :
  filter (λ kv : string * string, kept compiled kv.1 = true) m !! key
  = if kept compiled key then m !! key else None.
Proof.
  rewrite map_lookup_filter. destruct (m !! key) as [v|]; simpl.
  - destruct (kept compiled key) eqn:Hk.
    + by rewrite option_guard_True.
    + by rewrite option_guard_False by (simpl; congruence).
  - by destruct (kept compiled key).
Qed.


End Kept.

Lemma free_reserved_lookup (M : ProvidesData) (artifact_name artifact_group key : string) :
  (free_part M ∪ reserved_records artifact_name artifact_group) !! key
  = if decide (key = "artifact_name")
    then (if decide (artifact_name ≠ EmptyString) then Some artifact_name else None)
    else if decide (key = "artifact_group")
         then (if decide (artifact_group ≠ EmptyString) then Some artifact_group else None)
         else M !! key.
Proof.
  unfold free_part, reserved_records. rewrite lookup_union, map_lookup_filter.
  destruct (decide (key = "artifact_name")) as [->|Hn].
  - destruct (M !! "artifact_name"); simpl;
      rewrite ?option_guard_False by (unfold not_reserved; simpl; tauto);
      repeat case_decide; simplify_map_eq; done.
  - destruct (decide (key = "artifact_group")) as [->|Hg].
    + destruct (M !! "artifact_group"); simpl;
        rewrite ?option_guard_False by (unfold not_reserved; simpl; tauto);
        repeat case_decide; simplify_map_eq; done.
    + assert (Hnone : (if decide (artifact_group ≠ EmptyString)
                       then <["artifact_group" := artifact_group]>
                              (if decide (artifact_name ≠ EmptyString)
                               then <["artifact_name" := artifact_name]> (∅ : ProvidesData)
                               else ∅)
                       else if decide (artifact_name ≠ EmptyString)
                            then <["artifact_name" := artifact_name]> ∅ else ∅) !! key
                      = None).
      { repeat case_decide; simplify_map_eq; done. }
      simpl. rewrite Hnone. destruct (M !! key) as [v|]; simpl; [|done].
      by rewrite option_guard_True by (unfold not_reserved; simpl; tauto).
Qed.

Lemma written_lookup (M : ProvidesData) (store : kv_db.KeyValueDatabase) (key : string) :
  written M store !! key
  = if decide (key = artifact_provides_key)
    then (if decide (encode_provides M ≠ EmptyString)
          then Some (encode_provides M) else store !! key)
    else if decide (key = artifact_group_key)
         then (if decide (at_or_empty M "artifact_group" ≠ EmptyString)
               then Some (at_or_empty M "artifact_group") else None)
         else if decide (key = artifact_name_key)
              then Some (at_or_empty M "artifact_name")
              else store !! key.
Proof.
  unfold written, artifact_provides_key, artifact_group_key, artifact_name_key.
  repeat case_decide; simplify_map_eq; done.
Qed.


Lemma encode_provides_empty (M : ProvidesData) :
  encode_provides M = EmptyString → free_part M = ∅.
Proof.
  rewrite encode_provides_text, <- blob_entries_map.
  destruct (blob_entries M); [done | discriminate].
Qed.

Section Idempotence.
Context `{RegexLibrary}.



Lemma set_reserved_safe (artifact_name artifact_group : string) (M : ProvidesData) :
  blob_safe M → blob_safe (set_reserved artifact_name artifact_group M).
Proof.
  intros Hsafe key value Hlookup Hkey. rewrite set_reserved_lookup in Hlookup.
  unfold overwritten in Hlookup. destruct Hkey as [Hn Hg].
  rewrite decide_False in Hlookup by (intros [? _]; congruence).
  rewrite decide_False in Hlookup by (intros [? _]; congruence).
  apply Hsafe; [done | by split].
Qed.





End Idempotence.

(** * The filter, whatever the library *)

Section FilterFacts.
Context `{RegexLibrary}.

Lemma FilterProvides_kept (new_provides : ProvidesData) (clears : ClearsProvidesData)
    (m : ProvidesData) :
  match compile_all clears with
  | Some compiled =>
      FilterProvides new_provides clears m
      = (NoError,
         new_provides ∪ filter (λ kv : string * string, kept compiled kv.1 = true) m)
  | None => (FilterProvides new_provides clears m).1 = AssertionFailure
  end.
Proof.
  pose proof (FilterProvides_spec new_provides clears m) as Hf.
  rewrite filter_patterns_kept in Hf. by destruct (compile_all clears).
Qed.

Lemma compile_all_Some (clears : ClearsProvidesData) :
  is_Some (compile_all clears)
  ↔ ∀ pattern, pattern ∈ clears → is_Some (regex_assign_basic (escape pattern)).
Proof.
  induction clears as [|p rest IH]; simpl.
  - split; [intros _ ? ?%elem_of_nil; done | eauto].
  - split.
    + intros Hsome pattern Hin.
      destruct (regex_assign_basic (escape p)) as [r|] eqn:Hp;
        [|by destruct Hsome].
      destruct (compile_all rest) as [others|]; [|by destruct Hsome].
      apply elem_of_cons in Hin as [->|Hin]; [by rewrite Hp|].
      apply IH; eauto.
    + intros Hall. destruct (Hall p) as [r ->]; [by left|].
      destruct (proj2 IH) as [others ->]; [|eauto].
      intros pattern Hin. apply Hall. by right.
Qed.

Lemma compile_all_None (clears : ClearsProvidesData) :
  compile_all clears = None →
  ∃ pattern, pattern ∈ clears ∧ regex_assign_basic (escape pattern) = None.
Proof.
  induction clears as [|p rest IH]; simpl; [done|].
  destruct (regex_assign_basic (escape p)) as [r|] eqn:Hp.
  - destruct (compile_all rest) as [others|]; [done|]. intros _.
    destruct IH as (pattern & Hin & Hnone); [done|].
    exists pattern. split; [by right | done].
  - intros _. exists p. split; [by left | done].
Qed.

Lemma compile_all_elem (clears : ClearsProvidesData) (compiled : list regex) (r : regex) :
  compile_all clears = Some compiled →
  r ∈ compiled
  ↔ ∃ pattern, pattern ∈ clears ∧ regex_assign_basic (escape pattern) = Some r.
Proof.
  revert compiled. induction clears as [|p rest IH]; intros compiled; simpl.
  - intros [= <-]. split; [by intros ?%elem_of_nil|].
    by intros (pattern & ?%elem_of_nil & _).
  - destruct (regex_assign_basic (escape p)) as [r'|] eqn:Hp; [|done].
    destruct (compile_all rest) as [others|]; [|done]. intros [= <-].
    rewrite elem_of_cons, (IH others) by done. split.
    + intros [->|(pattern & Hin & Hr)].
      * exists p. split; [by left | done].
      * exists pattern. split; [by right | done].
    + intros (pattern & Hin & Hr). apply elem_of_cons in Hin as [->|Hin].
      * left. congruence.
      * right. eauto.
Qed.

Lemma kept_true (compiled : list regex) (key : string) :
  kept compiled key = true ↔ ∀ r, r ∈ compiled → regex_match key r = false.
Proof.
  unfold kept. rewrite forallb_forall. split.
  - intros Hall r Hr. apply list_elem_of_In, Hall in Hr. by destruct (regex_match key r).
  - intros Hall r Hr. apply list_elem_of_In, Hall in Hr. by rewrite Hr.
Qed.

Lemma kept_same (clears clears' : ClearsProvidesData) (compiled compiled' : list regex)
    (key : string) :
  (∀ pattern, pattern ∈ clears ↔ pattern ∈ clears') →
  compile_all clears = Some compiled → compile_all clears' = Some compiled' →
  kept compiled key = kept compiled' key.
Proof.
  intros Hsame Hc Hc'.
  apply eq_true_iff_eq. rewrite !kept_true.
  split; intros Hall r Hr; apply Hall.
  - apply (compile_all_elem _ _ _ Hc). apply (compile_all_elem _ _ _ Hc') in Hr.
    destruct Hr as (pattern & Hin & Hr). exists pattern. split; [by apply Hsame | done].
  - apply (compile_all_elem _ _ _ Hc'). apply (compile_all_elem _ _ _ Hc) in Hr.
    destruct Hr as (pattern & Hin & Hr). exists pattern. split; [by apply Hsame | done].
Qed.

(** X2.  What a filter that succeeds leaves in [to_modify]: every entry
    of the new provides, and besides them only entries that were there
    before the call, with the values they had.  The filter makes up no
    key and changes no value of a key it keeps. *)
Theorem FilterProvides_entries (new_provides : ProvidesData)
    (clears_provides : ClearsProvidesData) (to_modify modified : ProvidesData) :
  FilterProvides new_provides clears_provides to_modify = (NoError, modified) →
  (∀ key value, new_provides !! key = Some value → modified !! key = Some value)
  ∧ (∀ key value, modified !! key = Some value →
       new_provides !! key = Some value
       ∨ (new_provides !! key = None ∧ to_modify !! key = Some value)).
Proof.
  intros Hf. pose proof (FilterProvides_kept new_provides clears_provides to_modify) as Hk.
  destruct (compile_all clears_provides) as [compiled|].
  - rewrite Hk in Hf. injection Hf as <-. split.
    + intros key value Hnew. by rewrite lookup_union, Hnew, union_Some_l.
    + intros key value. rewrite lookup_union, kept_lookup.
      destruct (new_provides !! key) as [v|]; simpl.
      * rewrite union_Some_l. intros [= <-]. by left.
      * rewrite (left_id_L None union). destruct (kept compiled key); [|done].
        intros Hm. by right.
  - rewrite Hf in Hk. discriminate Hk.
Qed.

(** X3.  The filter ends without error exactly when every clear pattern
    compiles once escaped, and with the assertion exactly when one of
    them does not: the outcome depends on the patterns alone, not on the
    provides. *)
Theorem FilterProvides_outcome (new_provides : ProvidesData)
    (clears_provides : ClearsProvidesData) (to_modify : ProvidesData) :
  ((FilterProvides new_provides clears_provides to_modify).1 = NoError
   ↔ ∀ pattern, pattern ∈ clears_provides →
       is_Some (regex_assign_basic (escape pattern)))
  ∧ ((FilterProvides new_provides clears_provides to_modify).1 = AssertionFailure
     ↔ ∃ pattern, pattern ∈ clears_provides
                  ∧ regex_assign_basic (escape pattern) = None).
Proof.
  pose proof (FilterProvides_kept new_provides clears_provides to_modify) as Hk.
  pose proof (compile_all_Some clears_provides) as Hsome.
  destruct (compile_all clears_provides) as [compiled|] eqn:Hc.
  - rewrite Hk. simpl. split.
    + split; [intros _; apply Hsome; eauto | done].
    + split; [done|]. intros (pattern & Hin & Hnone).
      destruct (proj1 Hsome (ltac:(eauto)) pattern Hin) as [r Hr]. congruence.
  - rewrite Hk. split.
    + split; [done|]. intros Hall. apply Hsome in Hall. by destruct Hall.
    + split; [|done]. intros _.
      by apply compile_all_None.
Qed.

(** X4.  Two lists of clear patterns with the same members end the same
    way, and when they end without error they leave the same provides:
    neither the order of the patterns nor a pattern given twice makes a
    difference. *)
Theorem FilterProvides_pattern_set (new_provides : ProvidesData)
    (clears clears' : ClearsProvidesData) (to_modify : ProvidesData) :
  (∀ pattern, pattern ∈ clears ↔ pattern ∈ clears') →
  (FilterProvides new_provides clears to_modify).1
  = (FilterProvides new_provides clears' to_modify).1
  ∧ ((FilterProvides new_provides clears to_modify).1 = NoError →
     FilterProvides new_provides clears' to_modify
     = FilterProvides new_provides clears to_modify).
Proof.
  intros Hsame.
  pose proof (FilterProvides_kept new_provides clears to_modify) as Hk.
  pose proof (FilterProvides_kept new_provides clears' to_modify) as Hk'.
  pose proof (compile_all_Some clears) as Hsome.
  pose proof (compile_all_Some clears') as Hsome'.
  destruct (compile_all clears) as [compiled|] eqn:Hc,
           (compile_all clears') as [compiled'|] eqn:Hc'.
  - rewrite Hk, Hk'. split; [done|]. intros _. do 2 f_equal.
    apply map_filter_ext. intros key value _. simpl.
    by rewrite (kept_same clears clears' compiled compiled' key).
  - assert (Hall : is_Some (@None (list regex))); [|by destruct Hall].
    apply Hsome'. intros pattern Hin. apply Hsome; [eauto | by apply Hsame].
  - assert (Hall : is_Some (@None (list regex))); [|by destruct Hall].
    apply Hsome. intros pattern Hin. apply Hsome'; [eauto | by apply Hsame].
  - rewrite Hk, Hk'. split; [done | discriminate].
Qed.

Lemma clear_loop_app (before after : ClearsProvidesData) (compiled : list regex)
    (m : ProvidesData) :
  compile_all before = Some compiled →
  clear_loop (before ++ after) m
  = clear_loop after (filter (λ kv : string * string, kept compiled kv.1 = true) m).
Proof.
  revert compiled m. induction before as [|p rest IH]; intros compiled m; simpl.
  - intros [= <-]. f_equal. symmetry. by apply map_filter_id.
  - destruct (regex_assign_basic (escape p)) as [r|]; [|done].
    destruct (compile_all rest) as [others|] eqn:Hrest; [|done]. intros [= <-].
    rewrite erase_matching, (IH others) by done. f_equal.
    unfold remove_matching. rewrite map_filter_filter.
    apply map_filter_ext. intros key value _. simpl.
    destruct (regex_match key r); simpl; naive_solver.
Qed.

(** X24.  When a clear pattern does not compile, the filter stops there:
    [to_modify] is left with the keys that the patterns before it keep,
    the patterns after it are not looked at, and none of the new provides
    is added. *)
Theorem FilterProvides_stops (new_provides : ProvidesData)
    (before after : ClearsProvidesData) (bad : string) (compiled : list regex)
    (to_modify : ProvidesData) :
  compile_all before = Some compiled →
  regex_assign_basic (escape bad) = None →
  FilterProvides new_provides (before ++ bad :: after) to_modify
  = (AssertionFailure,
     filter (λ kv : string * string, kept compiled kv.1 = true) to_modify).
Proof.
  intros Hbefore Hbad. unfold FilterProvides.
  rewrite (clear_loop_app before (bad :: after) compiled) by done.
  simpl. by rewrite Hbad.
Qed.

End FilterFacts.

(** * The filter on literal patterns *)

(** X1.  The escaped pattern is at least as long as the pattern and at
    most twice as long: the [reserve] of line 245 is enough for it. *)
Theorem escape_length (to_clear : string) :
  (String.length to_clear ≤ String.length (escape to_clear) ≤ 2 * String.length to_clear)%nat.
Proof.
  induction to_clear as [|chr rest IH]; cbn [escape]; [simpl; lia|].
  destruct (Ascii.eqb chr "*"); [simpl; lia|].
  destruct (any_of_eq meta_characters chr); simpl; lia.
Qed.

Lemma filter_patterns_glob (clears : ClearsProvidesData) (m : ProvidesData) :
  Forall literal_pattern clears →
  (∀ key, is_Some (m !! key) → nul_free key) →
  filter_patterns clears m
  = Some (filter (λ kv : string * string, survives clears kv.1 = true) m).
Proof.
  intros Hlit. revert m. induction Hlit as [|pattern rest Hp Hrest IH]; intros m Hkeys.
  - simpl. f_equal. symmetry. by apply map_filter_id.
  - cbn [filter_patterns].
    destruct (full_match_glob pattern EmptyString Hp) as (compiled & Hc & _).
    { unfold nul_free. simpl. apply not_elem_of_nil. }
    change (regex_assign_basic (escape pattern)) with (bre.compile (escape pattern)).
    rewrite Hc. rewrite IH.
    + f_equal. unfold remove_matching. rewrite map_filter_filter.
      apply map_filter_ext. intros key value Hkey. simpl.
      destruct (full_match_glob pattern key Hp) as (compiled' & Hc' & Hglob).
      { apply Hkeys. eauto. }
      rewrite Hc in Hc'. injection Hc' as <-.
      change (@regex_match posix_basic key compiled) with (bre.full_match key compiled).
      rewrite Hglob. destruct (glob pattern key); simpl; naive_solver.
    + intros key [value Hv]. apply Hkeys. unfold remove_matching in Hv.
      apply map_lookup_filter_Some in Hv as [Hv _]. eauto.
Qed.


Lemma glob_star (key : string) : glob "*" key = true.
Proof.
  unfold glob. simpl. induction (list_ascii_of_string key) as [|c l IH]; [done|].
  simpl. destruct l; simpl in *; done.
Qed.

(** X6.  Line 311: "Missing clears_provides is equivalent to [["*"]]".
    On existing provides whose keys have no NUL the merge with the one
    clear pattern [*] is the merge with no clears at all, whatever the
    new provides are. *)
Theorem missing_clears_is_star (existing : ProvidesData)
    (artifact_name artifact_group : string) (new_provides : option ProvidesData) :
  (∀ key, is_Some (existing !! key) → nul_free key) →
  merge_provides existing artifact_name artifact_group new_provides (Some ["*"])
  = merge_provides existing artifact_name artifact_group new_provides None.
Proof.
  intros Hkeys.
  assert (Hstar : ∀ new, FilterProvides new ["*"] existing = (NoError, new)).
  { intros new.
    pose proof (FilterProvides_spec new ["*"] existing) as Hf.
    rewrite filter_patterns_glob in Hf; [|by repeat constructor|done].
    rewrite Hf. f_equal.
    apply map_eq. intros key. rewrite lookup_union, map_lookup_filter.
    destruct (existing !! key) as [value|]; simpl.
    - rewrite option_guard_False by (simpl; rewrite glob_star; discriminate).
      by destruct (new !! key).
    - by destruct (new !! key). }
  unfold merge_provides. destruct new_provides as [new|]; by rewrite Hstar.
Qed.

(** * Reading the records *)

(** X7.  [LoadProvides] asks the store for three records.  If one of
    these reads fails the result is the store's error and nothing is
    decoded; otherwise the result is what the three records decode to, a
    missing record counting as an empty one. *)
Theorem LoadProvides_reads (store : kv_db.KeyValueDatabase) (faults : list bool) :
  LoadProvides_standalone store faults
  = if faulty 3 faults then Unexpected DatabaseError
    else provides_of_records (record store artifact_name_key)
           (record store artifact_group_key) (record store artifact_provides_key).
Proof.
  unfold LoadProvides_standalone, kv_db.ReadTransaction, LoadProvides,
    kv_db.ReadString, kv_db.Read, kv_db.next_fault, record, faulty.
  destruct faults as [|[] [|[] [|[] faults]]]; simpl;
    repeat (first [ reflexivity | case_match; simplify_eq/= ]).
Qed.

Lemma add_children_lookup (children : list (string * json.Json)) (ret : ProvidesData)
    (key : string) :
  add_children children ret !! key
  = match member_value children key with
    | Some value => Some value
    | None => ret !! key
    end.
Proof.
  revert ret. induction children as [|[k j] rest IH]; intros ret; simpl; [done|].
  destruct j as [value| |]; rewrite IH; destruct (member_value rest key); try done.
  destruct (decide (k = key)) as [->|Hne].
  - by rewrite lookup_insert_eq.
  - by rewrite lookup_insert_ne.
Qed.

(** X8.  When the provides record is an object of strings, every member
    is in the result, the last one winning among members with the same
    key, and the two reserved records show only under keys the object
    does not have: a member called [artifact_name] replaces the name
    record. *)
Theorem LoadProvides_members (artifact_name artifact_group blob : string)
    (children : list (string * json.Json)) :
  blob ≠ EmptyString →
  json.Load blob = Value (json.JsonObject children) →
  all_strings children = true →
  ∃ provides,
    provides_of_records artifact_name artifact_group blob = Value provides
    ∧ ∀ key, provides !! key
             = match member_value children key with
               | Some value => Some value
               | None => reserved_records artifact_name artifact_group !! key
               end.
Proof.
  intros Hblob Hload Hstrings. rewrite reserved_records_ret.
  rewrite decide_False by done. rewrite Hload. simpl. rewrite Hstrings.
  eexists. split; [done|]. intros key. apply add_children_lookup.
Qed.

(** X10.  The blob is the empty string exactly when the mapping has no
    key besides the reserved ones, and it is never the text of an empty
    object. *)
Theorem encode_provides_shape (M : ProvidesData) :
  (encode_provides M = EmptyString ↔ free_part M = ∅)
  ∧ encode_provides M ≠ "{}".
Proof.
  rewrite encode_provides_text, <- blob_entries_map.
  destruct (blob_entries M) as [|it l].
  - split; [done | discriminate].
  - split.
    + split; [discriminate|]. intros Hempty. destruct it as [key value].
      rewrite list_to_map_cons in Hempty. by apply insert_non_empty in Hempty.
    + intros Heq. apply (f_equal list_ascii_of_string) in Heq.
      rewrite list_ascii_of_append in Heq.
      destruct (members_text_starts it l []) as (more & Hstart).
      rewrite app_nil_r in Hstart. rewrite Hstart in Heq.
      injection Heq as Hquote _. vm_compute in Hquote. discriminate Hquote.
Qed.

(** * What a commit leaves *)

Lemma next_fault_data (txn : kv_db.Transaction) :
  kv_db.txn_data (kv_db.next_fault txn).2 = kv_db.txn_data txn.
Proof. unfold kv_db.next_fault. by destruct (kv_db.txn_faults txn). Qed.

Lemma ReadString_success (key : string) (txn txn' : kv_db.Transaction) (value : string) :
  kv_db.ReadString key txn = (NoError, value, txn') →
  value = record (kv_db.txn_data txn) key ∧ kv_db.txn_data txn' = kv_db.txn_data txn.
Proof.
  unfold kv_db.ReadString, kv_db.Read, record. intros Hread.
  pose proof (next_fault_data txn) as Hdata.
  destruct (kv_db.next_fault txn) as [[] t]; simpl in *; [congruence|].
  rewrite <- Hdata. destruct (kv_db.txn_data t !! key); simplify_eq; done.
Qed.

Lemma LoadProvides_success (txn txn' : kv_db.Transaction) (existing : ProvidesData) :
  LoadProvides txn = (Value existing, txn') →
  kv_db.txn_data txn' = kv_db.txn_data txn
  ∧ provides_of_records (record (kv_db.txn_data txn) artifact_name_key)
      (record (kv_db.txn_data txn) artifact_group_key)
      (record (kv_db.txn_data txn) artifact_provides_key) = Value existing.
Proof.
  unfold LoadProvides. intros Hload.
  destruct (kv_db.ReadString artifact_name_key txn) as [[e1 name] t1] eqn:H1.
  destruct e1; try congruence. apply ReadString_success in H1 as [-> Hd1].
  destruct (kv_db.ReadString artifact_group_key t1) as [[e2 group] t2] eqn:H2.
  destruct e2; try congruence. apply ReadString_success in H2 as [-> Hd2].
  destruct (kv_db.ReadString artifact_provides_key t2) as [[e3 blob] t3] eqn:H3.
  destruct e3; try congruence. apply ReadString_success in H3 as [-> Hd3].
  injection Hload as Hrecords <-. rewrite Hd2, Hd1 in *. by rewrite Hd3.
Qed.

Lemma Write_success (key value : string) (txn txn' : kv_db.Transaction) :
  kv_db.Write key value txn = (NoError, txn') →
  kv_db.txn_data txn' = <[key := value]> (kv_db.txn_data txn).
Proof.
  unfold kv_db.Write. intros Hw. pose proof (next_fault_data txn) as Hdata.
  destruct (kv_db.next_fault txn) as [[] t]; simpl in *; [congruence|].
  injection Hw as <-. simpl. by rewrite Hdata.
Qed.

Lemma Remove_success (key : string) (txn txn' : kv_db.Transaction) :
  kv_db.Remove key txn = (NoError, txn') →
  kv_db.txn_data txn' = delete key (kv_db.txn_data txn).
Proof.
  unfold kv_db.Remove. intros Hw. pose proof (next_fault_data txn) as Hdata.
  destruct (kv_db.next_fault txn) as [[] t]; simpl in *; [congruence|].
  injection Hw as <-. simpl. by rewrite Hdata.
Qed.

Lemma write_records_success (M : ProvidesData)
    (txn_func : kv_db.Transaction → Error * kv_db.Transaction)
    (txn txn' : kv_db.Transaction) :
  write_records M txn_func txn = (NoError, txn') →
  at_or_empty M "artifact_name" ≠ EmptyString
  ∧ ∃ given, kv_db.txn_data given = written M (kv_db.txn_data txn)
             ∧ txn_func given = (NoError, txn').
Proof.
  unfold write_records, written. intros Hw.
  destruct (decide (at_or_empty M "artifact_name" ≠ EmptyString)) as [Hname|];
    [|congruence].
  split; [done|].
  destruct (kv_db.Write artifact_name_key _ txn) as [e1 t1] eqn:H1.
  destruct e1; try congruence. apply Write_success in H1.
  destruct (decide (at_or_empty M "artifact_group" ≠ EmptyString)) as [Hgroup|Hgroup].
  - destruct (kv_db.Write artifact_group_key _ t1) as [e2 t2] eqn:H2.
    destruct e2; try congruence. apply Write_success in H2.
    destruct (decide (encode_provides M ≠ EmptyString)).
    + destruct (kv_db.Write artifact_provides_key _ t2) as [e3 t3] eqn:H3.
      destruct e3; try congruence. apply Write_success in H3.
      exists t3. split; [|done]. by rewrite H3, H2, H1.
    + exists t2. split; [|done]. by rewrite H2, H1.
  - destruct (kv_db.Remove artifact_group_key t1) as [e2 t2] eqn:H2.
    destruct e2; try congruence. apply Remove_success in H2.
    destruct (decide (encode_provides M ≠ EmptyString)).
    + destruct (kv_db.Write artifact_provides_key _ t2) as [e3 t3] eqn:H3.
      destruct e3; try congruence. apply Write_success in H3.
      exists t3. split; [|done]. by rewrite H3, H2, H1.
    + exists t2. split; [|done]. by rewrite H2, H1.
Qed.

Section CommitFacts.
Context `{RegexLibrary}.

Lemma commit_succeeded (store : kv_db.KeyValueDatabase) (faults : list bool)
    (artifact_name artifact_group : string)
    (new_provides : option ProvidesData) (clears_provides : option ClearsProvidesData)
    (txn_func : kv_db.Transaction → Error * kv_db.Transaction)
    (store' : kv_db.KeyValueDatabase) :
  CommitArtifactData store faults artifact_name artifact_group new_provides
    clears_provides txn_func = (NoError, store') →
  ∃ existing M given txn',
    provides_of_records (record store artifact_name_key)
      (record store artifact_group_key) (record store artifact_provides_key)
    = Value existing
    ∧ merge_provides existing artifact_name artifact_group new_provides clears_provides
      = (NoError, M)
    ∧ at_or_empty M "artifact_name" ≠ EmptyString
    ∧ kv_db.txn_data given = written M store
    ∧ txn_func given = (NoError, txn')
    ∧ store' = kv_db.txn_data txn'.
Proof.
  unfold CommitArtifactData, kv_db.WriteTransaction, commit_in_transaction.
  intros Hcommit.
  destruct (LoadProvides _) as [[existing|err] t0] eqn:Hload.
  2:{ apply LoadProvides_error in Hload. destruct err; simpl in *; congruence. }
  apply LoadProvides_success in Hload as [Hd0 Hrecords]. simpl in *.
  destruct (merge_provides existing artifact_name artifact_group new_provides
              clears_provides) as [err M] eqn:Hmerge.
  destruct err; simpl in *; try congruence.
  destruct (write_records M txn_func t0) as [err txn'] eqn:Hw.
  destruct err; simpl in *; try congruence.
  apply write_records_success in Hw as (Hname & given & Hgiven & Hfunc).
  pose proof (next_fault_data txn') as Hdata.
  destruct (kv_db.next_fault txn') as [[] t]; simpl in *; [congruence|].
  injection Hcommit as <-.
  exists existing, M, given, txn'. rewrite Hd0 in Hgiven. by rewrite Hdata.
Qed.

Lemma commit_failed (store : kv_db.KeyValueDatabase) (faults : list bool)
    (artifact_name artifact_group : string)
    (new_provides : option ProvidesData) (clears_provides : option ClearsProvidesData)
    (txn_func : kv_db.Transaction → Error * kv_db.Transaction) :
  (CommitArtifactData store faults artifact_name artifact_group new_provides
     clears_provides txn_func).1 ≠ NoError →
  (CommitArtifactData store faults artifact_name artifact_group new_provides
     clears_provides txn_func).2 = store.
Proof.
  unfold CommitArtifactData, kv_db.WriteTransaction.
  destruct (commit_in_transaction _ _ _ _ _ _) as [err txn].
  destruct err; simpl; try done.
  destruct (kv_db.next_fault txn) as [[] txn']; simpl; done.
Qed.

(** X11.  When a commit succeeds, the caller's function was run once the
    records were written, on a transaction in which the name record is
    not empty (and is the name argument, when that is not empty), the
    group record is never the empty string (and is the group argument,
    when that is not empty) and every key other than the three provides
    records is as the store had it; the function succeeded, and the store
    is the transaction as the function left it. *)
Theorem CommitArtifactData_continuation (store : kv_db.KeyValueDatabase)
    (faults : list bool) (artifact_name artifact_group : string)
    (new_provides : option ProvidesData) (clears_provides : option ClearsProvidesData)
    (txn_func : kv_db.Transaction → Error * kv_db.Transaction)
    (store' : kv_db.KeyValueDatabase) :
  CommitArtifactData store faults artifact_name artifact_group new_provides
    clears_provides txn_func = (NoError, store') →
  ∃ given txn',
    txn_func given = (NoError, txn')
    ∧ store' = kv_db.txn_data txn'
    ∧ (∃ name, kv_db.txn_data given !! artifact_name_key = Some name
               ∧ name ≠ EmptyString
               ∧ (artifact_name ≠ EmptyString → name = artifact_name))
    ∧ kv_db.txn_data given !! artifact_group_key ≠ Some EmptyString
    ∧ (artifact_group ≠ EmptyString →
       kv_db.txn_data given !! artifact_group_key = Some artifact_group)
    ∧ (∀ key, ¬ provides_record_key key →
         kv_db.txn_data given !! key = store !! key).
Proof.
  intros (existing & M & given & txn' & _ & Hmerge & Hname & Hgiven & Hfunc & ->)
    %commit_succeeded.
  exists given, txn'. split; [done|]. split; [done|]. rewrite Hgiven.
  assert (HM : (artifact_name ≠ EmptyString →
                at_or_empty M "artifact_name" = artifact_name)
               ∧ (artifact_group ≠ EmptyString →
                  at_or_empty M "artifact_group" = artifact_group)).
  { unfold merge_provides in Hmerge.
    destruct (match new_provides, clears_provides with
              | None, None => (NoError, ∅)
              | None, Some clears => FilterProvides ∅ clears existing
              | Some new, None => (NoError, new)
              | Some new, Some clears => FilterProvides new clears existing
              end) as [err merged].
    destruct err; try congruence. injection Hmerge as <-.
    unfold at_or_empty. rewrite !set_reserved_lookup. unfold overwritten.
    split; intros Hne.
    - by rewrite decide_True.
    - rewrite decide_False by (intros [[=] _]). by rewrite decide_True. }
  destruct HM as [HMname HMgroup].
  split; [|split; [|split]].
  - exists (at_or_empty M "artifact_name"). rewrite written_lookup.
    rewrite !decide_False by done. rewrite decide_True by done. auto.
  - rewrite written_lookup.
    rewrite decide_False by done. rewrite decide_True by done.
    case_decide; congruence.
  - intros Hgroup. rewrite written_lookup.
    rewrite decide_False by done. rewrite decide_True by done.
    rewrite (HMgroup Hgroup). by rewrite decide_True.
  - intros key Hkey. rewrite written_lookup. unfold provides_record_key in Hkey.
    rewrite !decide_False by tauto. done.
Qed.

Lemma merge_without_clears (existing : ProvidesData) (artifact_name artifact_group : string)
    (new_provides : option ProvidesData) :
  merge_provides existing artifact_name artifact_group new_provides None
  = (NoError, set_reserved artifact_name artifact_group (default ∅ new_provides)).
Proof. unfold merge_provides. by destruct new_provides. Qed.

(** X12.  Lines 346-356.  With an empty name argument, no clears and new
    provides that bring no non-empty [artifact_name], a commit never
    succeeds, leaves the store as it was, and ends the same way whatever
    the caller's function is: the function is not run. *)
Theorem CommitArtifactData_without_name (store : kv_db.KeyValueDatabase)
    (faults : list bool) (artifact_group : string)
    (new_provides : option ProvidesData)
    (txn_func : kv_db.Transaction → Error * kv_db.Transaction) :
  at_or_empty (default ∅ new_provides) "artifact_name" = EmptyString →
  let result := CommitArtifactData store faults EmptyString artifact_group
                  new_provides None txn_func in
  result.1 ≠ NoError
  ∧ result.2 = store
  ∧ (∀ other_func, CommitArtifactData store faults EmptyString artifact_group
                     new_provides None other_func = result).
Proof.
  intros Hname. cbv zeta.
  assert (Hfails : ∀ f, (CommitArtifactData store faults EmptyString artifact_group
                           new_provides None f).1 ≠ NoError).
  { intros f Herr.
    destruct (CommitArtifactData store faults EmptyString artifact_group
                new_provides None f) as [err store'] eqn:Hcommit.
    simpl in Herr. subst err.
    apply commit_succeeded in Hcommit
      as (existing & M & given & txn' & _ & Hmerge & HM & _).
    rewrite merge_without_clears in Hmerge. injection Hmerge as <-.
    apply HM. unfold at_or_empty in *. rewrite set_reserved_lookup. unfold overwritten.
    rewrite decide_False by (intros [_ Hne]; by apply Hne).
    rewrite decide_False by (intros [[=] _]). done. }
  split; [apply Hfails|]. split; [apply commit_failed, Hfails|].
  intros other_func. unfold CommitArtifactData, kv_db.WriteTransaction,
    commit_in_transaction.
  destruct (LoadProvides _) as [[existing|err] t0]; [|done].
  rewrite merge_without_clears. unfold write_records.
  assert (Hnone : at_or_empty (set_reserved EmptyString artifact_group
                                 (default ∅ new_provides)) "artifact_name"
                  = EmptyString).
  { unfold at_or_empty in *. rewrite set_reserved_lookup. unfold overwritten.
    rewrite decide_False by (intros [_ Hne]; by apply Hne).
    rewrite decide_False by (intros [[=] _]). done. }
  rewrite Hnone. by rewrite !decide_False by (intros Hne; by apply Hne).
Qed.

(** X13.  Lines 293-296.  On a store whose provides cannot be loaded a
    commit ends with the decoding error and writes nothing, whatever its
    arguments: also when the new provides would replace all the old
    ones. *)
Theorem CommitArtifactData_unreadable_provides (store : kv_db.KeyValueDatabase)
    (artifact_name artifact_group : string)
    (new_provides : option ProvidesData) (clears_provides : option ClearsProvidesData)
    (txn_func : kv_db.Transaction → Error * kv_db.Transaction) (err : Error) :
  LoadProvides_standalone store [] = Unexpected err →
  CommitArtifactData store [] artifact_name artifact_group new_provides
    clears_provides txn_func = (JsonError, store).
Proof.
  unfold LoadProvides_standalone, kv_db.ReadTransaction.
  unfold CommitArtifactData, kv_db.WriteTransaction, commit_in_transaction.
  rewrite LoadProvides_no_faults. simpl. intros Hload. rewrite Hload.
  apply provides_of_records_error in Hload. by subst err.
Qed.

Lemma loadable_lookup (M : ProvidesData) (key : string) :
  at_or_empty M "artifact_name" ≠ EmptyString →
  (free_part M ∪ reserved_records (at_or_empty M "artifact_name")
                   (at_or_empty M "artifact_group")) !! key
  = loadable M !! key.
Proof.
  intros Hname. rewrite free_reserved_lookup. unfold loadable, at_or_empty, not_reserved.
  rewrite map_lookup_filter.
  destruct (decide (key = "artifact_name")) as [->|Hn].
  - rewrite decide_True by done.
    unfold at_or_empty in Hname. destruct (M !! "artifact_name") as [v|]; simpl in *; [|done].
    by rewrite option_guard_True by (simpl; tauto).
  - destruct (decide (key = "artifact_group")) as [->|Hg].
    + destruct (M !! "artifact_group") as [v|]; simpl.
      * destruct (decide (v ≠ EmptyString)) as [Hv|Hv].
        -- by rewrite option_guard_True by (simpl; tauto).
        -- rewrite option_guard_False; [done|]. simpl. intros [[_ ?]|?]; done.
      * done.
    + destruct (M !! key) as [v|]; simpl; [|done].
      by rewrite option_guard_True by (simpl; tauto).
Qed.

Lemma commit_written (store : kv_db.KeyValueDatabase)
    (artifact_name artifact_group : string)
    (new_provides : option ProvidesData) (clears_provides : option ClearsProvidesData)
    (existing M : ProvidesData) :
  LoadProvides_standalone store [] = Value existing →
  merge_provides existing artifact_name artifact_group new_provides clears_provides
  = (NoError, M) →
  at_or_empty M "artifact_name" ≠ EmptyString →
  CommitArtifactData store [] artifact_name artifact_group new_provides
    clears_provides no_more_writes
  = (NoError, written M store).
Proof.
  unfold LoadProvides_standalone, kv_db.ReadTransaction.
  rewrite LoadProvides_no_faults. cbn [fst]. intros Hload Hmerge Hname.
  by rewrite CommitArtifactData_no_faults, Hload, Hmerge, decide_True.
Qed.

Lemma written_records (M : ProvidesData) (store : kv_db.KeyValueDatabase) :
  (free_part M = ∅ → record store artifact_provides_key = EmptyString) →
  record (written M store) artifact_name_key = at_or_empty M "artifact_name"
  ∧ record (written M store) artifact_group_key = at_or_empty M "artifact_group"
  ∧ record (written M store) artifact_provides_key = encode_provides M.
Proof.
  intros Hstale. unfold record. rewrite !written_lookup.
  rewrite (decide_False (P := artifact_name_key = artifact_provides_key)) by done.
  rewrite (decide_False (P := artifact_name_key = artifact_group_key)) by done.
  rewrite (decide_False (P := artifact_group_key = artifact_provides_key)) by done.
  rewrite !decide_True by done. simpl. split; [done|]. split.
  - case_decide as Hg; [done|]. simpl. by rewrite Hg.
  - case_decide as He; [done|]. rewrite He.
    apply Hstale. by apply encode_provides_empty.
Qed.

(** X14.  Commit, then load.  When the merged provides have a name,
    their non-reserved keys and values can be written into the blob as
    they are, and either one such key exists or the store had no provides
    record, the commit succeeds and [LoadProvides] then returns the
    merged provides, less a reserved key whose value is the empty
    string. *)
Theorem LoadProvides_after_commit (store : kv_db.KeyValueDatabase)
    (artifact_name artifact_group : string)
    (new_provides : option ProvidesData) (clears_provides : option ClearsProvidesData)
    (existing M : ProvidesData) :
  LoadProvides_standalone store [] = Value existing →
  merge_provides existing artifact_name artifact_group new_provides clears_provides
  = (NoError, M) →
  at_or_empty M "artifact_name" ≠ EmptyString →
  blob_safe M →
  (free_part M = ∅ → record store artifact_provides_key = EmptyString) →
  let result := CommitArtifactData store [] artifact_name artifact_group
                  new_provides clears_provides no_more_writes in
  result.1 = NoError
  ∧ LoadProvides_standalone result.2 [] = Value (loadable M).
Proof.
  intros Hload Hmerge Hname Hsafe Hstale. cbv zeta.
  rewrite (commit_written store artifact_name artifact_group new_provides
             clears_provides existing M) by done.
  split; [done|]. cbn [snd].
  unfold LoadProvides_standalone, kv_db.ReadTransaction.
  rewrite LoadProvides_no_faults. cbn [fst].
  destruct (written_records M store Hstale) as (-> & -> & ->).
  rewrite decode_encoded by done. f_equal. apply map_eq. intros key.
  by apply loadable_lookup.
Qed.

End CommitFacts.

(** * Store faults during a commit *)

Lemma ReadString_step (key : string) (store : kv_db.KeyValueDatabase)
    (faults : list bool) :
  kv_db.ReadString key {| kv_db.txn_data := store; kv_db.txn_faults := faults |}
  = match faults with
    | true :: later =>
        (DatabaseError, EmptyString,
         {| kv_db.txn_data := store; kv_db.txn_faults := later |})
    | _ => (NoError, record store key,
            {| kv_db.txn_data := store; kv_db.txn_faults := tail faults |})
    end.
Proof.
  unfold kv_db.ReadString, kv_db.Read, kv_db.next_fault, record.
  destruct faults as [|[] later]; simpl; [|done|]; by destruct (store !! key).
Qed.

Lemma Write_step (key value : string) (store : kv_db.KeyValueDatabase)
    (faults : list bool) :
  kv_db.Write key value {| kv_db.txn_data := store; kv_db.txn_faults := faults |}
  = match faults with
    | true :: later =>
        (DatabaseError, {| kv_db.txn_data := store; kv_db.txn_faults := later |})
    | _ => (NoError, {| kv_db.txn_data := <[key := value]> store;
                        kv_db.txn_faults := tail faults |})
    end.
Proof. unfold kv_db.Write, kv_db.next_fault. by destruct faults as [|[] later]. Qed.

Lemma Remove_step (key : string) (store : kv_db.KeyValueDatabase) (faults : list bool) :
  kv_db.Remove key {| kv_db.txn_data := store; kv_db.txn_faults := faults |}
  = match faults with
    | true :: later =>
        (DatabaseError, {| kv_db.txn_data := store; kv_db.txn_faults := later |})
    | _ => (NoError, {| kv_db.txn_data := delete key store;
                        kv_db.txn_faults := tail faults |})
    end.
Proof. unfold kv_db.Remove, kv_db.next_fault. by destruct faults as [|[] later]. Qed.

Lemma faulty_add (a b : nat) (faults : list bool) :
  faulty (a + b) faults = faulty a faults || faulty b (drop a faults).
Proof.
  unfold faulty. revert faults. induction a as [|a IH]; intros faults; simpl.
  - by rewrite drop_0.
  - destruct faults as [|fault faults]; simpl.
    + by rewrite take_nil.
    + by rewrite IH, orb_assoc.
Qed.

Lemma LoadProvides_faults (store : kv_db.KeyValueDatabase) (faults : list bool) :
  if faulty 3 faults
  then (LoadProvides {| kv_db.txn_data := store; kv_db.txn_faults := faults |}).1
       = Unexpected DatabaseError
  else LoadProvides {| kv_db.txn_data := store; kv_db.txn_faults := faults |}
       = (provides_of_records (record store artifact_name_key)
            (record store artifact_group_key) (record store artifact_provides_key),
          {| kv_db.txn_data := store; kv_db.txn_faults := drop 3 faults |}).
Proof.
  unfold LoadProvides, faulty.
  destruct faults as [|[] [|[] [|[] faults]]];
    rewrite ?ReadString_step; cbn [tail]; rewrite ?ReadString_step; cbn [tail];
    rewrite ?ReadString_step; cbn [tail]; try reflexivity.
Qed.

Lemma write_records_faults (M : ProvidesData) (store : kv_db.KeyValueDatabase)
    (faults : list bool) :
  at_or_empty M "artifact_name" ≠ EmptyString →
  if faulty (commit_operations M - 4) faults
  then (write_records M no_more_writes
          {| kv_db.txn_data := store; kv_db.txn_faults := faults |}).1 = DatabaseError
  else write_records M no_more_writes
         {| kv_db.txn_data := store; kv_db.txn_faults := faults |}
       = (NoError, {| kv_db.txn_data := written M store;
                      kv_db.txn_faults := drop (commit_operations M - 4) faults |}).
Proof.
  intros Hname. unfold write_records, commit_operations, written, no_more_writes, faulty.
  rewrite (decide_True (P := at_or_empty M "artifact_name" ≠ EmptyString)) by done.
  destruct (decide (encode_provides M ≠ EmptyString)),
           (decide (at_or_empty M "artifact_group" ≠ EmptyString));
    destruct faults as [|[] [|[] [|[] faults]]];
    rewrite ?Write_step, ?Remove_step; cbn [tail];
    rewrite ?Write_step, ?Remove_step; cbn [tail];
    rewrite ?Write_step, ?Remove_step; cbn [tail]; try reflexivity.
Qed.

Section CommitFaults.
Context `{RegexLibrary}.

(** X25.  A commit with a continuation that writes nothing does six
    operations on the store, seven when the blob is not empty: three
    reads, the write of the name, the write or the removal of the group,
    the write of the blob, and the commit of the transaction.  When the
    store loads, the merge succeeds and the merged provides have a name,
    a fault in any of these operations ends the commit with the store's
    error and the store unchanged; without one the commit succeeds and
    the store holds the new records. *)
Theorem CommitArtifactData_faults (store : kv_db.KeyValueDatabase) (faults : list bool)
    (artifact_name artifact_group : string)
    (new_provides : option ProvidesData) (clears_provides : option ClearsProvidesData)
    (existing M : ProvidesData) :
  LoadProvides_standalone store [] = Value existing →
  merge_provides existing artifact_name artifact_group new_provides clears_provides
  = (NoError, M) →
  at_or_empty M "artifact_name" ≠ EmptyString →
  CommitArtifactData store faults artifact_name artifact_group new_provides
    clears_provides no_more_writes
  = if faulty (commit_operations M) faults then (DatabaseError, store)
    else (NoError, written M store).
Proof.
  unfold LoadProvides_standalone, kv_db.ReadTransaction.
  rewrite LoadProvides_no_faults. cbn [fst]. intros Hload Hmerge Hname.
  assert (Hoperations : commit_operations M = 3 + ((commit_operations M - 4) + 1)).
  { unfold commit_operations. case_decide; reflexivity. }
  rewrite Hoperations, !faulty_add.
  unfold CommitArtifactData, kv_db.WriteTransaction, commit_in_transaction.
  pose proof (LoadProvides_faults store faults) as Hread.
  destruct (faulty 3 faults).
  { destruct (LoadProvides _) as [loaded txn]. simpl in Hread. by subst loaded. }
  rewrite Hread, Hload, Hmerge. simpl.
  pose proof (write_records_faults M store (drop 3 faults) Hname) as Hwrite.
  destruct (faulty (commit_operations M - 4) (drop 3 faults)).
  { destruct (write_records _ _ _) as [err txn]. simpl in Hwrite. by subst err. }
  rewrite Hwrite. simpl. unfold kv_db.next_fault, faulty. simpl.
  destruct (drop (commit_operations M - 4) (drop 3 faults)) as [|[] later]; reflexivity.
Qed.

End CommitFaults.

(** * The device type file *)

Lemma first_line (content : string) :
  no_newline content
  ∨ ∃ line tail, no_newline line ∧ content = line +:+ nl +:+ tail.
Proof.
  induction content as [|c content IH].
  - left. unfold no_newline. simpl. apply not_elem_of_nil.
  - destruct (Ascii.eqb_spec c io.newline) as [->|Hc].
    + right. exists EmptyString, content. split; [|done].
      unfold no_newline. simpl. apply not_elem_of_nil.
    + destruct IH as [Hnl|(line & tail & Hnl & ->)].
      * left. unfold no_newline in *. simpl. intros [?|?]%elem_of_cons; done.
      * right. exists (String c line), tail. split; [|done].
        unfold no_newline in *. simpl. intros [?|?]%elem_of_cons; done.
Qed.

Lemma substring_split (n : nat) (s : string) (m : nat) :
  (String.length s ≤ m)%nat → substring 0 n s +:+ substring n m s = s.
Proof.
  revert s. induction n as [|n IH]; intros s Hm.
  - replace (substring 0 0 s) with EmptyString by (by destruct s).
    simpl. by apply substring_all.
  - destruct s as [|c s]; simpl in *; [done|]. rewrite IH; [done | lia].
Qed.

Lemma no_newline_suffix (a b : string) : no_newline (a +:+ b) → no_newline b.
Proof.
  unfold no_newline. induction a as [|c a IH]; simpl; [done|].
  intros Hnl. apply IH. intros Hin. apply Hnl. by right.
Qed.

Lemma device_type_line (line : string) :
  substring 0 eq_pos line = "device_type=" →
  line = "device_type=" +:+ substring eq_pos (String.length line) line.
Proof.
  intros Hprefix. rewrite <- Hprefix at 1. symmetry. by apply substring_split.
Qed.

(** X16.  On a file that reads well, [GetDeviceType] returns a value
    exactly when the file is the prefix [device_type=] and the value,
    alone or followed by one newline, and the value has no newline in
    it: every other content is an error. *)
Theorem GetDeviceType_value (config : MenderConfig) (content value : string) :
  GetDeviceType config (readable content) = Value value
  ↔ no_newline value
    ∧ (content = "device_type=" +:+ value ∨ content = "device_type=" +:+ value +:+ nl).
Proof.
  rewrite GetDeviceType_readable. split.
  - intros Hread. destruct (first_line content) as [Hnl|(line & tail & Hnl & ->)].
    + rewrite read_device_type_line in Hread by done.
      destruct (decide (substring 0 eq_pos content ≠ "device_type=")) as [|Hprefix];
        [done|].
      apply dec_stable in Hprefix. injection Hread as <-.
      pose proof (device_type_line content Hprefix) as Hline.
      split; [|by left]. apply (no_newline_suffix "device_type="). by rewrite <- Hline.
    + rewrite read_device_type_lines in Hread by done.
      destruct (decide (substring 0 eq_pos line ≠ "device_type=")) as [|Hprefix];
        [done|].
      apply dec_stable in Hprefix.
      destruct (decide (tail = EmptyString)) as [->|]; [|done]. injection Hread as <-.
      pose proof (device_type_line line Hprefix) as Hline.
      split.
      * apply (no_newline_suffix "device_type="). by rewrite <- Hline.
      * right. rewrite append_empty_r.
        rewrite <- (append_assoc "device_type=" _ nl). by rewrite <- Hline.
  - intros [Hnl [-> | ->]]; pose proof (no_newline_prefixed value Hnl) as Hline.
    + rewrite read_device_type_line by done.
      rewrite decide_False by (rewrite prefix_taken; auto).
      by rewrite value_taken.
    + rewrite <- (append_empty_r nl).
      rewrite <- (append_assoc "device_type=" value (nl +:+ EmptyString)).
      rewrite read_device_type_lines by done.
      rewrite decide_False by (rewrite prefix_taken; auto).
      by rewrite value_taken.
Qed.

(** X17.  The file is the configured [device_type_file], or
    [device_type] in the data store when none is configured.  A missing
    file is the error of the open; a device error on the first read is
    reported with its [errno], whatever the file holds; a device error on
    the second read, after a good first line, is reported as the value
    error for trailing data (line 228 looks at [eof] alone). *)
Theorem GetDeviceType_file_errors (config : MenderConfig) (fs : string → option io.file) :
  (fs (device_type_path config) = None →
   GetDeviceType config fs = Unexpected (IoError io.ENOENT))
  ∧ (∀ content errno later,
       fs (device_type_path config)
       = Some {| io.bytes := content; io.device_errno := Some errno :: later |} →
       GetDeviceType config fs = Unexpected (IoError errno))
  ∧ (∀ value tail errno later,
       no_newline value →
       fs (device_type_path config)
       = Some {| io.bytes := "device_type=" +:+ value +:+ nl +:+ tail;
                 io.device_errno := None :: Some errno :: later |} →
       GetDeviceType config fs = Unexpected ValueError).
Proof.
  unfold GetDeviceType, device_type_path, io.OpenIfstream.
  split; [|split].
  - by intros ->.
  - intros content errno later ->. reflexivity.
  - intros value tail errno later Hnl ->.
    pose proof (no_newline_prefixed value Hnl) as Hline.
    unfold read_device_type, io.getline.
    cbn [io.good io.eofbit io.failbit io.badbit io.unread io.read_errno io.bytes
         io.device_errno negb andb].
    rewrite <- (append_assoc "device_type=" value (nl +:+ tail)).
    rewrite extract_line_first by done.
    cbn [io.bad io.badbit].
    rewrite decide_False by (rewrite prefix_taken; auto).
    reflexivity.
Qed.

(** * Assertions of the matcher, and larger provides *)

(** X18.  The matcher ends with an assertion exactly when provides have
    the [artifact_name] key and the checks come to a list that is there
    and empty: the device types; the names, once the device type is
    listed; the groups, once the name is listed too.  An empty list
    behind a check that already answered false goes unnoticed.  The
    matcher has no errors but the value error and the assertion. *)
Theorem ArtifactMatchesContext_assertion (provides : ProvidesData) (device_type : string)
    (hdr_info : artifact.HeaderInfo) (type_info : artifact.TypeInfo) :
  (ArtifactMatchesContext provides device_type hdr_info type_info
   = Unexpected AssertionFailure
   ↔ is_Some (provides !! "artifact_name")
     ∧ empty_list_reached provides device_type (artifact.depends hdr_info))
  ∧ (∀ err, ArtifactMatchesContext provides device_type hdr_info type_info
            = Unexpected err → err = ValueError ∨ err = AssertionFailure).
Proof.
  unfold ArtifactMatchesContext, empty_list_reached, listed_name.
  destruct hdr_info as [[devices names groups]]. simpl.
  destruct (MapContainsStringKey provides "artifact_name") eqn:Hname; simpl.
  2:{ apply MapContainsStringKey_false in Hname. rewrite Hname. split.
      - split; [done | by intros [[] _]].
      - intros err [= <-]. by left. }
  apply MapContainsStringKey_true in Hname.
  destruct devices as [|device devices]; simpl.
  { split; [split; [by auto | done] | intros err [= <-]; by right]. }
  destruct (VectorContainsString (device :: devices) device_type) eqn:Hdt; simpl.
  2:{ split; [|done]. split; [done|]. intros (_ & [[=]|[Hin _]]).
      apply VectorContainsString_true in Hin. congruence. }
  apply VectorContainsString_true in Hdt.
  destruct (type_info_step_spec provides type_info) as (answer & Hti & _).
  unfold name_step, group_step. rewrite Hti.
  destruct names as [[|n names]|]; simpl.
  - split; [split; [by auto 6 | done] | intros err [= <-]; by right].
  - destruct (VectorContainsString (n :: names) (map_at provides "artifact_name"))
      eqn:Hn; simpl.
    2:{ split; [|done]. split; [done|].
        intros (_ & [[=]|(_ & [[=]|[Hl _]])]).
        specialize (Hl _ eq_refl). apply VectorContainsString_true in Hl. congruence. }
    apply VectorContainsString_true in Hn.
    destruct groups as [[|g groups]|]; simpl.
    + split; [split; [|done] | intros err [= <-]; by right].
      intros _. split; [done|]. right. split; [done|]. right.
      split; [by intros ? [= <-] | done].
    + destruct (MapContainsStringKey provides "artifact_group"); simpl;
        [destruct (VectorContainsString (g :: groups) _); simpl|];
        (split; [split; [done | naive_solver] | done]).
    + split; [split; [done | naive_solver] | done].
  - destruct groups as [[|g groups]|]; simpl.
    + split; [split; [|done] | intros err [= <-]; by right].
      intros _. split; [done|]. right. split; [done|]. right.
      split; [by intros ? [=] | done].
    + destruct (MapContainsStringKey provides "artifact_group"); simpl;
        [destruct (VectorContainsString (g :: groups) _); simpl|];
        (split; [split; [done | naive_solver] | done]).
    + split; [split; [done | naive_solver] | done].
Qed.

Lemma map_at_subseteq (provides more : ProvidesData) (key : string) :
  provides ⊆ more → is_Some (provides !! key) → map_at more key = map_at provides key.
Proof.
  intros Hsub [value Hv]. unfold map_at.
  by rewrite Hv, (lookup_weaken _ _ _ _ Hv Hsub).
Qed.

Lemma MapContainsStringKey_subseteq (provides more : ProvidesData) (key : string) :
  provides ⊆ more → MapContainsStringKey provides key = true →
  MapContainsStringKey more key = true.
Proof.
  intros Hsub [value Hv]%MapContainsStringKey_true. apply MapContainsStringKey_true.
  rewrite (lookup_weaken _ _ _ _ Hv Hsub). eauto.
Qed.

Lemma group_step_subseteq (provides more : ProvidesData) (groups : option (list string)) :
  provides ⊆ more → group_step provides groups = None → group_step more groups = None.
Proof.
  intros Hsub. unfold group_step. destruct groups as [groups|]; [|done].
  destruct (0 <? length groups)%nat; [|done]. simpl.
  destruct (MapContainsStringKey provides "artifact_group") eqn:Hgroup; [|done].
  rewrite (MapContainsStringKey_subseteq _ _ _ Hsub Hgroup). simpl.
  by rewrite (map_at_subseteq _ _ _ Hsub (proj1 (MapContainsStringKey_true _ _) Hgroup)).
Qed.

Lemma type_info_step_subseteq (provides more : ProvidesData)
    (type_info : artifact.TypeInfo) :
  provides ⊆ more → type_info_step provides type_info = Value true →
  type_info_step more type_info = Value true.
Proof.
  intros Hsub. unfold type_info_step.
  destruct (artifact.artifact_depends type_info) as [ti_depends|]; [|done].
  intros [= Hall]. f_equal. rewrite check_type_info_depends_true in Hall |- *.
  intros key value Hin. eapply lookup_weaken; [by apply Hall | done].
Qed.

(** X19.  Provides that match still match when entries are added to
    them: no depends of an artifact asks for a key to be absent. *)
Theorem ArtifactMatchesContext_more_provides (provides more : ProvidesData)
    (device_type : string) (hdr_info : artifact.HeaderInfo)
    (type_info : artifact.TypeInfo) :
  provides ⊆ more →
  ArtifactMatchesContext provides device_type hdr_info type_info = Value true →
  ArtifactMatchesContext more device_type hdr_info type_info = Value true.
Proof.
  intros Hsub. unfold ArtifactMatchesContext.
  destruct (MapContainsStringKey provides "artifact_name") eqn:Hname; [|done].
  rewrite (MapContainsStringKey_subseteq _ _ _ Hsub Hname). simpl.
  destruct (0 <? length _)%nat; [|done]. simpl.
  destruct (VectorContainsString _ device_type); [|done]. simpl.
  assert (Hstep : name_step more (artifact.artifact_name (artifact.depends hdr_info))
                  = name_step provides (artifact.artifact_name (artifact.depends hdr_info))).
  { unfold name_step.
    by rewrite (map_at_subseteq _ _ _ Hsub (proj1 (MapContainsStringKey_true _ _) Hname)). }
  rewrite Hstep. destruct (name_step provides _) as [result|]; [done|].
  destruct (group_step provides _) as [result|] eqn:Hgroup.
  - intros ->. unfold group_step in Hgroup. repeat case_match; simplify_eq.
  - rewrite (group_step_subseteq _ _ _ Hsub Hgroup). by apply type_info_step_subseteq.
Qed.

(** * Matching against the store *)

Section MatchCommitted.
Context `{RegexLibrary}.

Lemma loadable_free (M : ProvidesData) (key : string) :
  not_reserved key → loadable M !! key = M !! key.
Proof.
  intros Hkey. unfold loadable. rewrite map_lookup_filter.
  destruct (M !! key); simpl; [|done]. by rewrite option_guard_True by (simpl; tauto).
Qed.

(** X21.  After a commit of a name with new provides and no clears, on a
    device whose type file holds [device_type], an artifact that depends
    on that device type, on that name and on the non-reserved provides
    just committed matches.  The store has to load before the commit, the
    new provides have to fit the blob, and either they have a
    non-reserved key or the store had no provides record. *)
Theorem MatchesArtifactDepends_committed (config : MenderConfig)
    (store : kv_db.KeyValueDatabase) (device_type artifact_name artifact_group : string)
    (new_provides : option ProvidesData) (existing : ProvidesData) :
  artifact_name ≠ EmptyString →
  no_newline device_type →
  LoadProvides_standalone store [] = Value existing →
  blob_safe (default ∅ new_provides) →
  (free_part (default ∅ new_provides) = ∅ →
   record store artifact_provides_key = EmptyString) →
  let result := CommitArtifactData store [] artifact_name artifact_group
                  new_provides None no_more_writes in
  result.1 = NoError
  ∧ MatchesArtifactDepends config (readable ("device_type=" +:+ device_type +:+ nl))
      result.2 []
      (depends_on device_type artifact_name (free_part (default ∅ new_provides)))
    = Value true.
Proof.
  intros Hname Hdt Hload Hsafe Hstale.
  set (N := default ∅ new_provides) in *.
  assert (Hmerge : merge_provides existing artifact_name artifact_group new_provides None
                   = (NoError, set_reserved artifact_name artifact_group N)).
  { unfold merge_provides, N. by destruct new_provides. }
  assert (HMname : set_reserved artifact_name artifact_group N !! "artifact_name"
                   = Some artifact_name).
  { rewrite set_reserved_lookup. unfold overwritten. by rewrite decide_True. }
  assert (Hfree : free_part (set_reserved artifact_name artifact_group N) = free_part N).
  { unfold free_part. apply map_filter_strong_ext. intros key value. simpl.
    rewrite set_reserved_lookup. unfold overwritten.
    split; intros [[Hn Hg] Hv]; (split; [done|]);
      by rewrite !decide_False in * by (intros [? _]; done). }
  assert (HMnamed : at_or_empty (set_reserved artifact_name artifact_group N)
                      "artifact_name" ≠ EmptyString).
  { unfold at_or_empty. by rewrite HMname. }
  cbv zeta.
  rewrite (commit_written store artifact_name artifact_group new_provides None
             existing (set_reserved artifact_name artifact_group N)) by done.
  split; [done|]. cbn [snd].
  assert (Hloaded : LoadProvides_standalone
                      (written (set_reserved artifact_name artifact_group N) store) []
                    = Value (loadable (set_reserved artifact_name artifact_group N))).
  { unfold LoadProvides_standalone, kv_db.ReadTransaction.
    rewrite LoadProvides_no_faults. cbn [fst].
    destruct (written_records (set_reserved artifact_name artifact_group N) store)
      as (-> & -> & ->); [by rewrite Hfree|].
    rewrite decode_encoded by (by apply set_reserved_safe).
    f_equal. apply map_eq. intros key. by apply loadable_lookup. }
  unfold MatchesArtifactDepends. rewrite Hloaded.
  assert (Hread : GetDeviceType config (readable ("device_type=" +:+ device_type +:+ nl))
                  = Value device_type).
  { rewrite GetDeviceType_readable.
    pose proof (no_newline_prefixed device_type Hdt) as Hline.
    rewrite <- (append_empty_r nl).
    rewrite <- (append_assoc "device_type=" device_type (nl +:+ EmptyString)).
    rewrite read_device_type_lines by done.
    rewrite decide_False by (rewrite prefix_taken; auto).
    by rewrite value_taken. }
  rewrite Hread.
  set (M := set_reserved artifact_name artifact_group N) in *.
  assert (Hlname : loadable M !! "artifact_name" = Some artifact_name).
  { unfold loadable. rewrite map_lookup_filter, HMname. simpl.
    by rewrite option_guard_True by (simpl; tauto). }
  unfold ArtifactMatchesContext, depends_on. simpl.
  rewrite (proj2 (MapContainsStringKey_true _ _)) by (rewrite Hlname; eauto). simpl.
  rewrite (proj2 (VectorContainsString_true _ _)) by (by left). simpl.
  unfold map_at. rewrite Hlname. simpl.
  rewrite (proj2 (VectorContainsString_true _ _)) by (by left). simpl.
  unfold type_info_step. simpl. f_equal. apply check_type_info_depends_true.
  intros key value Hin%elem_of_map_to_list. unfold free_part in Hin.
  apply map_lookup_filter_Some in Hin as [Hin Hkey]. simpl in Hkey.
  rewrite loadable_free by done. unfold M. rewrite set_reserved_lookup.
  unfold overwritten. destruct Hkey as [Hn Hg].
  by rewrite !decide_False by (intros [? _]; done).
Qed.

End MatchCommitted.

Lemma no_name_loaded (store : kv_db.KeyValueDatabase) (faults : list bool)
    (provides : ProvidesData) :
  record store artifact_name_key = EmptyString →
  record store artifact_provides_key = EmptyString →
  LoadProvides_standalone store faults = Value provides →
  provides !! "artifact_name" = None.
Proof.
  intros Hname Hblob. unfold LoadProvides_standalone, kv_db.ReadTransaction.
  destruct (LoadProvides _) as [loaded txn] eqn:Hload. simpl. intros ->.
  apply LoadProvides_success in Hload as [_ Hrecords]. simpl in Hrecords.
  rewrite Hname, Hblob in Hrecords. unfold provides_of_records in Hrecords.
  simpl in Hrecords. injection Hrecords as <-.
  case_decide; by simplify_map_eq.
Qed.

(** X20.  On a store with no name record, or an empty one, and no
    provides record, [MatchesArtifactDepends] never gives an answer: it
    ends with an error, and when the device type reads well and the store
    does not fail that error is the value error for the missing
    [artifact_name]. *)
Theorem MatchesArtifactDepends_without_name (config : MenderConfig)
    (fs : string → option io.file) (store : kv_db.KeyValueDatabase) (faults : list bool)
    (hdr_view : artifact.HeaderView) :
  record store artifact_name_key = EmptyString →
  record store artifact_provides_key = EmptyString →
  (∀ answer, MatchesArtifactDepends config fs store faults hdr_view ≠ Value answer)
  ∧ (∀ device_type, GetDeviceType config fs = Value device_type →
       MatchesArtifactDepends config fs store [] hdr_view = Unexpected ValueError).
Proof.
  intros Hname Hblob.
  assert (Hmatch : ∀ provides device_type,
            provides !! "artifact_name" = None →
            ArtifactMatchesContext provides device_type
              (artifact.header_info hdr_view) (artifact.type_info hdr_view)
            = Unexpected ValueError).
  { intros provides device_type Hnone. unfold ArtifactMatchesContext.
    by rewrite (proj2 (MapContainsStringKey_false _ _) Hnone). }
  unfold MatchesArtifactDepends. split.
  - intros answer. destruct (GetDeviceType config fs) as [device_type|]; [|done].
    destruct (LoadProvides_standalone store faults) as [provides|] eqn:Hload; [|done].
    rewrite Hmatch; [done|]. by eapply no_name_loaded.
  - intros device_type ->.
    destruct (LoadProvides_standalone store []) as [provides|err] eqn:Hload.
    + apply Hmatch. by eapply no_name_loaded.
    + unfold LoadProvides_standalone, kv_db.ReadTransaction in Hload.
      rewrite LoadProvides_no_faults in Hload. simpl in Hload.
      rewrite Hname, Hblob in Hload. unfold provides_of_records in Hload.
      simpl in Hload. done.
Qed.

(** * Start-up and messages *)

(** X23.  Two codes have the same message only when they are the same
    code. *)
Theorem message_identifies_code (code other : error_code.MenderContextErrorCode) :
  message code = message other ↔ code = other.
Proof.
  split; [|by intros ->].
  destruct code, other; first [reflexivity | discriminate].
Qed.

Lemma LoadProvides_same_records (store store' : kv_db.KeyValueDatabase)
    (faults : list bool) :
  store' !! artifact_name_key = store !! artifact_name_key →
  store' !! artifact_group_key = store !! artifact_group_key →
  store' !! artifact_provides_key = store !! artifact_provides_key →
  LoadProvides_standalone store' faults = LoadProvides_standalone store faults.
Proof.
  intros Hn Hg Hp.
  unfold LoadProvides_standalone, kv_db.ReadTransaction, LoadProvides,
    kv_db.ReadString, kv_db.Read, kv_db.next_fault.
  destruct faults as [|[] [|[] [|[] faults]]]; simpl; rewrite ?Hn, ?Hg, ?Hp;
    repeat (first [ reflexivity | case_match; simplify_eq/= ]).
Qed.

(** X22.  [Initialize] changes no key of the store but the two
    authentication keys, so what [LoadProvides] returns is the same
    before and after it, whether it succeeds or not.  When it succeeds
    on a build with the store, both keys are gone.  It is not atomic: if
    the second removal fails, the first key stays removed. *)
Theorem Initialize_keys (MENDER_USE_LMDB : bool) (config : MenderConfig)
    (mender_store : kv_db.Store) :
  let result := Initialize MENDER_USE_LMDB config mender_store in
  (∀ key, key ≠ auth_token_name → key ≠ auth_token_cache_invalidator_name →
     kv_db.store_data result.2 !! key = kv_db.store_data mender_store !! key)
  ∧ (∀ faults, LoadProvides_standalone (kv_db.store_data result.2) faults
               = LoadProvides_standalone (kv_db.store_data mender_store) faults)
  ∧ (MENDER_USE_LMDB = true → result.1 = NoError →
     kv_db.store_data result.2 !! auth_token_name = None
     ∧ kv_db.store_data result.2 !! auth_token_cache_invalidator_name = None)
  ∧ (MENDER_USE_LMDB = true →
     take 3 (kv_db.store_faults mender_store) = [false; false; true] →
     result.1 = DatabaseError
     ∧ kv_db.store_data result.2 = delete auth_token_name (kv_db.store_data mender_store)).
Proof.
  cbv zeta.
  assert (Hframe : ∀ key, key ≠ auth_token_name →
            key ≠ auth_token_cache_invalidator_name →
            kv_db.store_data (Initialize MENDER_USE_LMDB config mender_store).2 !! key
            = kv_db.store_data mender_store !! key).
  { intros key Htoken Hinvalidator.
    unfold Initialize, kv_db.Store_Open, kv_db.Store_Remove, kv_db.store_fault.
    destruct MENDER_USE_LMDB; [|done]. destruct mender_store as [data faults].
    destruct faults as [|[] [|[] [|[] faults]]]; simpl;
      rewrite ?lookup_delete_ne by done; done. }
  split; [exact Hframe|]. split; [|split].
  - intros faults. apply LoadProvides_same_records; by apply Hframe.
  - intros -> Hok. unfold Initialize, kv_db.Store_Open, kv_db.Store_Remove, kv_db.store_fault in *.
    destruct mender_store as [data faults].
    destruct faults as [|[] [|[] [|[] faults]]]; simpl in *; try discriminate;
      by rewrite ?lookup_delete_eq, ?lookup_delete_ne, ?lookup_delete_eq by done.
  - intros -> Hfaults. unfold Initialize, kv_db.Store_Open, kv_db.Store_Remove, kv_db.store_fault.
    destruct mender_store as [data faults]. simpl in Hfaults.
    destruct faults as [|[] [|[] [|[] faults]]]; simpl in *; try discriminate. done.
Qed.

(** * Examples and counterexamples *)

(** C2, the claim as worded: provides that lack a non-empty
    [artifact_name] are not always answered with the value error.  Here
    [artifact_name] is present and empty, and the matcher answers
    true. *)
Lemma empty_artifact_name_is_no_error :
  ¬ has_non_empty unnamed_provides "artifact_name"
  ∧ ArtifactMatchesContext unnamed_provides "qemu" any_qemu no_type_info = Value true.
Proof.
  split.
  - intros (value & Hvalue & Hne). unfold unnamed_provides in Hvalue.
    rewrite lookup_singleton_eq in Hvalue. congruence.
  - vm_compute. reflexivity.
Qed.

Lemma ArtifactMatchesContext_spec_witness :
  populated (artifact.depends qemu_depends)
  ∧ is_Some (app_provides !! "artifact_name")
  ∧ ∃ answer : bool,
      ArtifactMatchesContext app_provides "qemu" qemu_depends checksum_depends
      = Value answer
      ∧ (answer = true
         ↔ compatible app_provides "qemu" (artifact.depends qemu_depends)
             checksum_depends).
Proof.
  assert (Hpop : populated (artifact.depends qemu_depends)).
  { repeat split; simpl; [done | intros ? [=] | intros ? [= <-]; done]. }
  assert (Hname : is_Some (app_provides !! "artifact_name")).
  { exists "app". vm_compute. reflexivity. }
  split; [exact Hpop|]. split; [exact Hname|].
  exact (proj2 (ArtifactMatchesContext_spec app_provides "qemu" qemu_depends
                  checksum_depends) Hpop Hname).
Defined.

Lemma CommitArtifactData_atomic_witness :
  (CommitArtifactData earlier_store [true] "new" EmptyString None None
     no_more_writes).2 = earlier_store
  ∧ (CommitArtifactData earlier_store [] "new" EmptyString None None
       failing_writes).1 ≠ NoError
  ∧ (CommitArtifactData earlier_store [] "new" EmptyString None None
       failing_writes).2 = earlier_store.
Proof.
  split.
  - apply (proj1 (CommitArtifactData_atomic earlier_store [true] "new" EmptyString
                    None None no_more_writes)).
    vm_compute. discriminate.
  - apply (proj2 (CommitArtifactData_atomic earlier_store [] "new" EmptyString
                    None None failing_writes)).
    intros txn. simpl. discriminate.
Defined.

(** C4.  A successful commit whose merged provides have no key besides
    [artifact_name] leaves the provides record of the earlier artifact in
    the store: line 369 writes the record when the blob is not empty and
    has no branch that removes it, unlike line 363 for the group. *)
Theorem stale_provides_record_survives :
  let result := CommitArtifactData earlier_store [] "new" EmptyString None None
                  no_more_writes in
  LoadProvides_standalone earlier_store [] = Value {[ "artifact_name" := "old"; "a" := "b" ]}
  ∧ merge_provides {[ "artifact_name" := "old"; "a" := "b" ]} "new" EmptyString None None
    = (NoError, {[ "artifact_name" := "new" ]})
  ∧ encode_provides {[ "artifact_name" := "new" ]} = EmptyString
  ∧ result.1 = NoError
  ∧ result.2 !! artifact_name_key = Some "new"
  ∧ result.2 !! artifact_group_key = None
  ∧ result.2 !! artifact_provides_key
    = Some ("{" +:+ quoted "a" +:+ ":" +:+ quoted "b" +:+ "}").
Proof. vm_compute. repeat split; reflexivity. Qed.

(** C5.  The clear pattern [(a)] has no [*]; the filter removes the key
    [a] and keeps the key [(a)]: the escaped pattern is [\(a\)], which
    the basic grammar reads as a group around [a]. *)
Theorem parentheses_are_not_literal :
  escape "(a)" = "\(a\)"
  ∧ FilterProvides ∅ ["(a)"] paren_provides = (NoError, {[ "(a)" := "2" ]}).
Proof. vm_compute. split; reflexivity. Qed.

(** C6.  The escaped form of the clear pattern [(] is [\(], an opening
    group that is never closed: it does not compile, and
    [FilterProvides] stops at its assertion, whatever the provides. *)
Theorem open_parenthesis_does_not_compile (new_provides to_modify : ProvidesData) :
  escape "(" = "\("
  ∧ regex_assign_basic (escape "(") = None
  ∧ FilterProvides new_provides ["("] to_modify = (AssertionFailure, to_modify).
Proof. repeat split; reflexivity. Qed.

(** C7.  A key with a quote in it is written into the blob as it is,
    and the blob is then no JSON text: decoding reports an error.  A key
    shaped like two members decodes, to a different mapping.  The empty
    mapping is written as the empty string. *)
Theorem unescaped_key_breaks_round_trip :
  encode_provides {[ quote_key := "v" ]}
  = "{" +:+ quote_mark +:+ quote_key +:+ quote_mark +:+ ":" +:+ quoted "v" +:+ "}"
  ∧ provides_of_records EmptyString EmptyString (encode_provides {[ quote_key := "v" ]})
    = Unexpected JsonError
  ∧ provides_of_records EmptyString EmptyString (encode_provides {[ members_key := "d" ]})
    = Value {[ "a" := "b"; "c" := "d" ]}
  ∧ encode_provides ∅ = EmptyString.
Proof. vm_compute. repeat split; reflexivity. Qed.

(** C9.  On an empty store, committing the name [n] with one new
    provides key shaped like two members and an empty clears list, twice:
    the second commit reads three keys back where one was written and
    stores a different provides record. *)
Theorem second_commit_changes_the_store :
  let new_provides : option ProvidesData := Some {[ members_key := "d" ]} in
  let once := CommitArtifactData ∅ [] "n" EmptyString new_provides (Some [])
                no_more_writes in
  let twice := CommitArtifactData once.2 [] "n" EmptyString new_provides (Some [])
                 no_more_writes in
  once.1 = NoError ∧ twice.1 = NoError
  ∧ once.2 !! artifact_provides_key
    = Some ("{" +:+ quoted "a" +:+ ":" +:+ quoted "b" +:+ ","
              +:+ quoted "c" +:+ ":" +:+ quoted "d" +:+ "}")
  ∧ twice.2 !! artifact_provides_key ≠ once.2 !! artifact_provides_key
  ∧ twice.2 ≠ once.2.
Proof.
  cbv zeta.
  set (new_provides := Some {[ members_key := "d" ]} : option ProvidesData).
  set (once := CommitArtifactData ∅ [] "n" EmptyString new_provides (Some [])
                 no_more_writes).
  set (twice := CommitArtifactData once.2 [] "n" EmptyString new_provides (Some [])
                  no_more_writes).
  assert (Hrecord : twice.2 !! artifact_provides_key ≠ once.2 !! artifact_provides_key)
    by (vm_compute; discriminate).
  split; [vm_compute; reflexivity|]. split; [vm_compute; reflexivity|].
  split; [vm_compute; reflexivity|]. split; [exact Hrecord|].
  intros Heq. apply Hrecord. by rewrite Heq.
Qed.

Lemma GetDeviceType_contract_witness :
  no_newline "foo "
  ∧ GetDeviceType {| device_type_file := EmptyString; data_store := "/var/lib/mender" |}
      (readable ("device_type=foo " +:+ nl)) = Value "foo ".
Proof.
  assert (Hnl : no_newline "foo ").
  { unfold no_newline. simpl. intros Hin.
    repeat (apply elem_of_cons in Hin as [Hin|Hin]; [discriminate Hin|]).
    by apply elem_of_nil in Hin. }
  split; [exact Hnl|].
  exact (proj1 (proj2 (GetDeviceType_contract
                         {| device_type_file := EmptyString;
                            data_store := "/var/lib/mender" |} "foo " Hnl))).
Defined.

(** ** Instances of the further results *)

Lemma nul_free_a : nul_free "a".
Proof.
  unfold nul_free. simpl. intros Hin.
  repeat (apply elem_of_cons in Hin as [Hin|Hin]; [discriminate Hin|]).
  by apply elem_of_nil in Hin.
Qed.

Lemma one_provides_nul_free (key : string) :
  is_Some (one_provides !! key) → nul_free key.
Proof.
  intros [value Hv]. unfold one_provides in Hv.
  apply lookup_singleton_Some in Hv as [<- _]. apply nul_free_a.
Qed.

Lemma one_provides_safe : blob_safe one_provides.
Proof.
  intros key value Hv _. unfold one_provides in Hv.
  apply lookup_singleton_Some in Hv as [<- <-].
  split; by repeat constructor.
Qed.


Lemma FilterProvides_entries_witness :
  FilterProvides {[ "n" := "1" ]} ["a"] one_provides = (NoError, {[ "n" := "1" ]})
  ∧ (∀ key value, ({[ "n" := "1" ]} : ProvidesData) !! key = Some value →
       ({[ "n" := "1" ]} : ProvidesData) !! key = Some value)
  ∧ (∀ key value, ({[ "n" := "1" ]} : ProvidesData) !! key = Some value →
       ({[ "n" := "1" ]} : ProvidesData) !! key = Some value
       ∨ (({[ "n" := "1" ]} : ProvidesData) !! key = None
          ∧ one_provides !! key = Some value)).
Proof.
  assert (Hfilter : FilterProvides {[ "n" := "1" ]} ["a"] one_provides
                    = (NoError, {[ "n" := "1" ]})) by (vm_compute; reflexivity).
  split; [exact Hfilter|].
  exact (FilterProvides_entries {[ "n" := "1" ]} ["a"] one_provides {[ "n" := "1" ]}
           Hfilter).
Defined.

Lemma FilterProvides_outcome_witness :
  (∃ pattern, pattern ∈ ["a"; "("] ∧ regex_assign_basic (escape pattern) = None)
  ∧ (FilterProvides ∅ ["a"; "("] one_provides).1 = AssertionFailure.
Proof.
  assert (Hpattern : ∃ pattern, pattern ∈ ["a"; "("]
                                ∧ regex_assign_basic (escape pattern) = None).
  { exists "(". split; [right; left | reflexivity]. }
  split; [exact Hpattern|].
  exact (proj2 (proj2 (FilterProvides_outcome ∅ ["a"; "("] one_provides)) Hpattern).
Defined.

Lemma FilterProvides_pattern_set_witness :
  (∀ pattern : string, pattern ∈ ["a"; "b"] ↔ pattern ∈ ["b"; "a"; "a"])
  ∧ FilterProvides ∅ ["b"; "a"; "a"] one_provides
    = FilterProvides ∅ ["a"; "b"] one_provides.
Proof.
  assert (Hsame : ∀ pattern : string, pattern ∈ ["a"; "b"] ↔ pattern ∈ ["b"; "a"; "a"])
    by set_solver.
  split; [exact Hsame|].
  apply (proj2 (FilterProvides_pattern_set ∅ ["a"; "b"] ["b"; "a"; "a"] one_provides
                  Hsame)).
  vm_compute. reflexivity.
Defined.


Lemma missing_clears_is_star_witness :
  (∀ key, is_Some (one_provides !! key) → nul_free key)
  ∧ merge_provides one_provides "n" EmptyString (Some {[ "c" := "d" ]}) (Some ["*"])
    = merge_provides one_provides "n" EmptyString (Some {[ "c" := "d" ]}) None.
Proof.
  split; [exact one_provides_nul_free|].
  exact (missing_clears_is_star one_provides "n" EmptyString (Some {[ "c" := "d" ]})
           one_provides_nul_free).
Defined.

Lemma LoadProvides_members_witness :
  ∃ provides,
    provides_of_records "old" EmptyString
      ("{" +:+ quoted "artifact_name" +:+ ":" +:+ quoted "new" +:+ "}") = Value provides
    ∧ provides !! "artifact_name" = Some "new".
Proof.
  destruct (LoadProvides_members "old" EmptyString
              ("{" +:+ quoted "artifact_name" +:+ ":" +:+ quoted "new" +:+ "}")
              [("artifact_name", json.JsonString "new")])
    as (provides & Hload & Hlookup).
  - discriminate.
  - vm_compute. reflexivity.
  - reflexivity.
  - exists provides. split; [exact Hload|]. rewrite Hlookup. reflexivity.
Defined.

Lemma provides_round_trip_witness :
  (∀ key value, one_provides !! key = Some value →
     not_reserved key ∧ plain_key key ∧ ascii_value value)
  ∧ provides_of_records EmptyString EmptyString (encode_provides one_provides)
    = Value one_provides.
Proof.
  assert (Hsafe : ∀ key value, one_provides !! key = Some value →
                    not_reserved key ∧ plain_key key ∧ ascii_value value).
  { intros key value Hv. unfold one_provides in Hv.
    apply lookup_singleton_Some in Hv as [<- <-].
    split; [by split|]. split; by repeat constructor. }
  split; [exact Hsafe|]. exact (provides_round_trip one_provides Hsafe).
Defined.

Lemma encode_provides_shape_witness :
  free_part ({[ "artifact_name" := "n" ]} : ProvidesData) = ∅
  ∧ encode_provides {[ "artifact_name" := "n" ]} = EmptyString.
Proof.
  assert (Hfree : free_part ({[ "artifact_name" := "n" ]} : ProvidesData) = ∅)
    by (vm_compute; reflexivity).
  split; [exact Hfree|].
  exact (proj2 (proj1 (encode_provides_shape {[ "artifact_name" := "n" ]})) Hfree).
Defined.

Lemma CommitArtifactData_continuation_witness :
  CommitArtifactData ∅ [] "n" "g" None None no_more_writes
  = (NoError, {[ artifact_name_key := "n"; artifact_group_key := "g" ]})
  ∧ ∃ given txn',
      no_more_writes given = (NoError, txn')
      ∧ ({[ artifact_name_key := "n"; artifact_group_key := "g" ]}
         : kv_db.KeyValueDatabase) = kv_db.txn_data txn'
      ∧ (∃ name, kv_db.txn_data given !! artifact_name_key = Some name
                 ∧ name ≠ EmptyString ∧ ("n" ≠ EmptyString → name = "n"))
      ∧ kv_db.txn_data given !! artifact_group_key ≠ Some EmptyString
      ∧ ("g" ≠ EmptyString → kv_db.txn_data given !! artifact_group_key = Some "g")
      ∧ (∀ key, ¬ provides_record_key key →
           kv_db.txn_data given !! key = (∅ : kv_db.KeyValueDatabase) !! key).
Proof.
  assert (Hcommit : CommitArtifactData ∅ [] "n" "g" None None no_more_writes
                    = (NoError, {[ artifact_name_key := "n"; artifact_group_key := "g" ]}))
    by (vm_compute; reflexivity).
  split; [exact Hcommit|].
  exact (CommitArtifactData_continuation ∅ [] "n" "g" None None no_more_writes _ Hcommit).
Defined.

Lemma CommitArtifactData_without_name_witness :
  at_or_empty (default ∅ (Some one_provides)) "artifact_name" = EmptyString
  ∧ (CommitArtifactData earlier_store [] EmptyString "g" (Some one_provides) None
       no_more_writes).1 ≠ NoError
  ∧ (CommitArtifactData earlier_store [] EmptyString "g" (Some one_provides) None
       no_more_writes).2 = earlier_store
  ∧ (∀ other_func,
       CommitArtifactData earlier_store [] EmptyString "g" (Some one_provides) None
         other_func
       = CommitArtifactData earlier_store [] EmptyString "g" (Some one_provides) None
           no_more_writes).
Proof.
  assert (Hname : at_or_empty (default ∅ (Some one_provides)) "artifact_name"
                  = EmptyString) by reflexivity.
  split; [exact Hname|].
  exact (CommitArtifactData_without_name earlier_store [] "g" (Some one_provides)
           no_more_writes Hname).
Defined.

Lemma CommitArtifactData_unreadable_provides_witness :
  LoadProvides_standalone corrupt_store [] = Unexpected JsonError
  ∧ CommitArtifactData corrupt_store [] "n" EmptyString (Some one_provides) None
      no_more_writes
    = (JsonError, corrupt_store).
Proof.
  assert (Hload : LoadProvides_standalone corrupt_store [] = Unexpected JsonError)
    by (vm_compute; reflexivity).
  split; [exact Hload|].
  exact (CommitArtifactData_unreadable_provides corrupt_store "n" EmptyString
           (Some one_provides) None no_more_writes JsonError Hload).
Defined.

Lemma LoadProvides_after_commit_witness :
  (CommitArtifactData ∅ [] "n" EmptyString (Some one_provides) None no_more_writes).1
  = NoError
  ∧ LoadProvides_standalone
      (CommitArtifactData ∅ [] "n" EmptyString (Some one_provides) None
         no_more_writes).2 []
    = Value (loadable (set_reserved "n" EmptyString one_provides)).
Proof.
  apply (LoadProvides_after_commit ∅ "n" EmptyString (Some one_provides) None ∅
           (set_reserved "n" EmptyString one_provides)).
  - vm_compute. reflexivity.
  - reflexivity.
  - vm_compute. discriminate.
  - apply set_reserved_safe, one_provides_safe.
  - intros _. reflexivity.
Defined.


Lemma GetDeviceType_value_witness :
  (no_newline "foo "
   ∧ ("device_type=foo " +:+ nl = "device_type=" +:+ "foo "
      ∨ "device_type=foo " +:+ nl = "device_type=" +:+ "foo " +:+ nl))
  ∧ GetDeviceType default_config (readable ("device_type=foo " +:+ nl)) = Value "foo ".
Proof.
  assert (Hfile : no_newline "foo "
                  ∧ ("device_type=foo " +:+ nl = "device_type=" +:+ "foo "
                     ∨ "device_type=foo " +:+ nl = "device_type=" +:+ "foo " +:+ nl)).
  { split; [|right; reflexivity]. unfold no_newline. simpl. intros Hin.
    repeat (apply elem_of_cons in Hin as [Hin|Hin]; [discriminate Hin|]).
    by apply elem_of_nil in Hin. }
  split; [exact Hfile|].
  exact (proj2 (GetDeviceType_value default_config ("device_type=foo " +:+ nl) "foo ")
           Hfile).
Defined.

Lemma GetDeviceType_file_errors_witness :
  no_files (device_type_path default_config) = None
  ∧ GetDeviceType default_config no_files = Unexpected (IoError io.ENOENT).
Proof.
  assert (Hmissing : no_files (device_type_path default_config) = None)
    by reflexivity.
  split; [exact Hmissing|].
  exact (proj1 (GetDeviceType_file_errors default_config no_files) Hmissing).
Defined.

Lemma ArtifactMatchesContext_assertion_witness :
  (is_Some (app_provides !! "artifact_name")
   ∧ empty_list_reached app_provides "qemu" (artifact.depends no_device))
  ∧ ArtifactMatchesContext app_provides "qemu" no_device no_type_info
    = Unexpected AssertionFailure.
Proof.
  assert (Hreached : is_Some (app_provides !! "artifact_name")
                     ∧ empty_list_reached app_provides "qemu"
                         (artifact.depends no_device)).
  { split; [exists "app"; vm_compute; reflexivity | left; reflexivity]. }
  split; [exact Hreached|].
  exact (proj2 (proj1 (ArtifactMatchesContext_assertion app_provides "qemu" no_device
                         no_type_info)) Hreached).
Defined.

Lemma ArtifactMatchesContext_more_provides_witness :
  ({[ "artifact_name" := "app" ]} : ProvidesData) ⊆ app_provides
  ∧ ArtifactMatchesContext {[ "artifact_name" := "app" ]} "qemu" any_qemu no_type_info
    = Value true
  ∧ ArtifactMatchesContext app_provides "qemu" any_qemu no_type_info = Value true.
Proof.
  assert (Hsub : ({[ "artifact_name" := "app" ]} : ProvidesData) ⊆ app_provides).
  { apply map_subseteq_spec. intros key value Hv.
    apply lookup_singleton_Some in Hv as [<- <-]. vm_compute. reflexivity. }
  assert (Hmatch : ArtifactMatchesContext {[ "artifact_name" := "app" ]} "qemu"
                     any_qemu no_type_info = Value true) by (vm_compute; reflexivity).
  split; [exact Hsub|]. split; [exact Hmatch|].
  exact (ArtifactMatchesContext_more_provides {[ "artifact_name" := "app" ]}
           app_provides "qemu" any_qemu no_type_info Hsub Hmatch).
Defined.

Lemma MatchesArtifactDepends_without_name_witness :
  record (∅ : kv_db.KeyValueDatabase) artifact_name_key = EmptyString
  ∧ record (∅ : kv_db.KeyValueDatabase) artifact_provides_key = EmptyString
  ∧ MatchesArtifactDepends default_config (readable "device_type=qemu") ∅ []
      (depends_on "qemu" "app" ∅)
    = Unexpected ValueError.
Proof.
  assert (Hname : record (∅ : kv_db.KeyValueDatabase) artifact_name_key = EmptyString)
    by reflexivity.
  assert (Hblob : record (∅ : kv_db.KeyValueDatabase) artifact_provides_key
                  = EmptyString) by reflexivity.
  split; [exact Hname|]. split; [exact Hblob|].
  apply (proj2 (MatchesArtifactDepends_without_name default_config
                  (readable "device_type=qemu") ∅ [] (depends_on "qemu" "app" ∅)
                  Hname Hblob) "qemu").
  vm_compute. reflexivity.
Defined.

Lemma MatchesArtifactDepends_committed_witness :
  (CommitArtifactData ∅ [] "n" "g" (Some one_provides) None no_more_writes).1 = NoError
  ∧ MatchesArtifactDepends default_config (readable ("device_type=" +:+ "qemu" +:+ nl))
      (CommitArtifactData ∅ [] "n" "g" (Some one_provides) None no_more_writes).2 []
      (depends_on "qemu" "n" (free_part (default ∅ (Some one_provides))))
    = Value true.
Proof.
  apply (MatchesArtifactDepends_committed default_config ∅ "qemu" "n" "g"
           (Some one_provides) ∅).
  - discriminate.
  - unfold no_newline. simpl. intros Hin.
    repeat (apply elem_of_cons in Hin as [Hin|Hin]; [discriminate Hin|]).
    by apply elem_of_nil in Hin.
  - vm_compute. reflexivity.
  - exact one_provides_safe.
  - intros _. reflexivity.
Defined.

Lemma Initialize_keys_witness :
  (Initialize true default_config token_store).1 = NoError
  ∧ kv_db.store_data (Initialize true default_config token_store).2 !! auth_token_name
    = None
  ∧ kv_db.store_data (Initialize true default_config token_store).2
      !! auth_token_cache_invalidator_name
    = None.
Proof.
  assert (Hok : (Initialize true default_config token_store).1 = NoError)
    by reflexivity.
  split; [exact Hok|].
  exact (proj1 (proj2 (proj2 (Initialize_keys true default_config token_store)))
           eq_refl Hok).
Defined.

Lemma message_identifies_code_witness :
  message error_code.ParseError = "Parse error"
  ∧ ∀ code, message code = "Parse error" → code = error_code.ParseError.
Proof.
  split; [reflexivity|]. intros code Hcode.
  exact (proj1 (message_identifies_code code error_code.ParseError) Hcode).
Defined.

Lemma FilterProvides_stops_witness :
  ∃ compiled,
    compile_all ["a"] = Some compiled
    ∧ regex_assign_basic (escape "(") = None
    ∧ FilterProvides {[ "n" := "1" ]} (["a"] ++ "(" :: ["b"]) one_provides
      = (AssertionFailure,
         filter (λ kv : string * string, kept compiled kv.1 = true) one_provides).
Proof.
  destruct (compile_all ["a"]) as [compiled|] eqn:Hcompiled;
    [|vm_compute in Hcompiled; discriminate Hcompiled].
  assert (Hbad : regex_assign_basic (escape "(") = None) by reflexivity.
  exists compiled. split; [reflexivity|]. split; [exact Hbad|].
  exact (FilterProvides_stops {[ "n" := "1" ]} ["a"] ["b"] "(" compiled one_provides
           Hcompiled Hbad).
Defined.

Lemma CommitArtifactData_faults_witness :
  CommitArtifactData ∅ [false; false; false; false; true] "n" EmptyString
    (Some one_provides) None no_more_writes
  = if faulty (commit_operations (set_reserved "n" EmptyString one_provides))
         [false; false; false; false; true]
    then (DatabaseError, ∅)
    else (NoError, written (set_reserved "n" EmptyString one_provides) ∅).
Proof.
  apply (CommitArtifactData_faults ∅ [false; false; false; false; true] "n" EmptyString
           (Some one_provides) None ∅ (set_reserved "n" EmptyString one_provides)).
  - vm_compute. reflexivity.
  - reflexivity.
  - vm_compute. discriminate.
Defined.
